(** * psg.c: a parallel genome search, embedded in Rocq

    The program loads FASTA files into one heap buffer and counts the
    occurrences of a literal pattern with [num_threads] POSIX threads, each
    scanning [chunk_size] start offsets and merging its local counters into two
    global counters under a mutex.

    The embedding follows the C text function by function.  C [long] and [int]
    values are integers in [Z]; pointers into the sequence buffer are byte
    offsets from [fasta->sequence]; the heap block behind [fasta->sequence] is a
    list of characters whose length is the size that was passed to [malloc].
    Behaviour that C leaves undefined (an access outside that block, a division
    by zero) and the program's [exit(1)] paths are explicit results.

    [main] and [Scan.search] are the program from the end of the option loop
    on in a system where malloc and the pthread calls succeed; [Run.main] adds
    the call of usage() in the option loop, malloc returning NULL and the
    pthread calls that [check_thread_rtn] finds to have failed. *)

From Stdlib Require Import ZArith List Ascii String Lia.
From stdpp Require Import base list numbers strings relations.

Open Scope Z_scope.

(** ** Results of fallible code *)

(** What stops a computation before it returns. *)
Inductive stop : Type :=
| Usage                          (* usage(): message and exit(1) *)
| CantOpen                       (* gzopen failed: exit(1) *)
| BufferTooSmall (cur max : Z)   (* "fasta buffer too small": exit(1) *)
| OutOfBounds (offset : Z)       (* access outside the heap block: undefined *)
| NoNewline                      (* the copy loop runs into bytes of line_buffer that
                                    nothing was stored in, or past it: undefined *)
| DivisionByZero                 (* long division by an int that is 0: undefined *)
| NegativeArray                  (* pthread_t threads[n] with n < 0: undefined *)
| NullPointer                    (* a store through the NULL malloc returned: undefined *)
| ThreadError (msge : string) (rtn : Z)
                                 (* check_thread_rtn: "ERROR: msge (rtn)", exit(1) *)
| OutOfFuel.                     (* artefact of the model's loop bound only *)

Inductive result (A : Type) : Type :=
| Ret (a : A)
| Stop (why : stop).
Arguments Ret {A} a.
Arguments Stop {A} why.

Definition bind {A B : Type} (m : result A) (k : A -> result B) : result B :=
  match m with
  | Ret a => k a
  | Stop why => Stop why
  end.

Notation "'do' x <- m ; k" := (bind m (fun x => k))
  (at level 10, x name, m at level 100, k at level 200).

(** The ways of stopping that are the program's own [exit(1)]. *)
Definition is_exit (why : stop) : bool :=
  match why with
  | Usage | CantOpen | BufferTooSmall _ _ | ThreadError _ _ => true
  | _ => false
  end.

(** The ways of stopping in which C gives the program no meaning. *)
Definition is_undefined (why : stop) : bool :=
  match why with
  | OutOfBounds _ | NoNewline | DivisionByZero | NegativeArray | NullPointer => true
  | _ => false
  end.

Definition sumZ (l : list Z) : Z := foldr Z.add 0 l.

(** ** The heap block behind [fasta->sequence] *)

Module Mem.

(** [*(sequence + i)] as an rvalue. *)
Definition load (mem : list ascii) (i : Z) : result ascii :=
  if decide (0 <= i) then
    match mem !! Z.to_nat i with
    | Some c => Ret c
    | None => Stop (OutOfBounds i)
    end
  else Stop (OutOfBounds i).

(** [*(sequence + i) = c]. *)
Definition store (mem : list ascii) (i : Z) (c : ascii) : result (list ascii) :=
  if decide (0 <= i < Z.of_nat (length mem)) then Ret (<[Z.to_nat i := c]> mem)
  else Stop (OutOfBounds i).

End Mem.

(** ** The two <string.h> functions the program calls *)

Module CString.

Definition NUL : ascii := Ascii.zero.

(** A C string is given by the characters in front of its terminator; a list
    that holds a NUL stands for the string that ends there. *)
Fixpoint strlen (s : list ascii) : nat :=
  match s with
  | [] => O
  | c :: s' => if Ascii.eqb c NUL then O else S (strlen s')
  end.

(** [strncmp(sequence + s1, s2, n) == 0], together with the offsets of the
    buffer bytes the comparison looked at.  It compares at most [n]
    characters and stops behind the first difference or the first NUL. *)
Fixpoint strncmp (mem : list ascii) (s1 : Z) (s2 : list ascii) (n : nat)
  : result (bool * list Z) :=
  match n with
  | O => Ret (true, [])
  | S n' =>
      do c1 <- Mem.load mem s1;
      let c2 := hd NUL s2 in
      if Ascii.eqb c1 c2 then
        if Ascii.eqb c1 NUL then Ret (true, [s1])
        else
          do r <- strncmp mem (s1 + 1) (tl s2) n';
          Ret (fst r, s1 :: snd r)
      else Ret (false, [s1])
  end.

End CString.

(** ** fasta_t and the program's global variables *)

Definition line_buffer_length : Z := 1024.

Record fasta_t : Type := {
  sequence : list ascii;   (* the block returned by malloc(max_length) *)
  seq_ptr : Z;             (* next location to store data, as an offset *)
  max_length : Z;
  cur_length : Z
}.

Record globals : Type := {
  verbose : bool;
  pattern : list ascii;
  num_threads : Z;
  fasta : fasta_t;
  match_count : Z;
  trial_count : Z;
  chunk_size : Z
}.

Definition set_chunk_size (g : globals) (c : Z) : globals :=
  {| verbose := verbose g; pattern := pattern g; num_threads := num_threads g;
     fasta := fasta g; match_count := match_count g; trial_count := trial_count g;
     chunk_size := c |}.

Definition set_match_count (g : globals) (n : Z) : globals :=
  {| verbose := verbose g; pattern := pattern g; num_threads := num_threads g;
     fasta := fasta g; match_count := n; trial_count := trial_count g;
     chunk_size := chunk_size g |}.

Definition set_trial_count (g : globals) (n : Z) : globals :=
  {| verbose := verbose g; pattern := pattern g; num_threads := num_threads g;
     fasta := fasta g; match_count := match_count g; trial_count := n;
     chunk_size := chunk_size g |}.

(** Everything but the two counters is the same in [g] and [g']. *)
Definition same_input (g g' : globals) : Prop :=
  verbose g' = verbose g /\ pattern g' = pattern g /\
  num_threads g' = num_threads g /\ fasta g' = fasta g /\
  chunk_size g' = chunk_size g.

(** ** Ingestion: fasta_create and fasta_read_file *)

Module Fasta.

Definition newline : ascii := "010"%char.

(** The block [malloc(n)] returns when it returns one: [n] bytes whose
    contents C leaves indeterminate; [junk i] is what byte [i] happens to
    hold.  [Run.fasta_create] has the case of NULL. *)
Definition malloc (junk : nat -> ascii) (n : Z) : list ascii :=
  map junk (seq 0 (Z.to_nat n)).

(** [fasta_create(max_length)] *)
Definition fasta_create (junk : nat -> ascii) (max_length : Z) : fasta_t :=
  {| sequence := malloc junk max_length; seq_ptr := 0;
     max_length := max_length; cur_length := 0 |}.

(** [*fasta->seq_ptr++ = c; fasta->cur_length++;] *)
Definition push (f : fasta_t) (c : ascii) : result fasta_t :=
  do m <- Mem.store (sequence f) (seq_ptr f) c;
  Ret {| sequence := m; seq_ptr := seq_ptr f + 1;
         max_length := max_length f; cur_length := cur_length f + 1 |}.

(** [char line_buffer[line_buffer_length]] is given by the bytes that have
    been stored in it since [fasta_read_file] was entered, from its start;
    what lies behind them is indeterminate.

    [gzgets(gzfp, line_buffer, line_buffer_length)] that delivers [line], at
    most [line_buffer_length - 1] characters: they are stored from the start
    of the array with a NUL behind them, and the bytes behind the NUL stay as
    earlier calls left them. *)
Definition gzgets (line_buffer line : list ascii) : list ascii :=
  line ++ CString.NUL :: drop (S (length line)) line_buffer.

(** [while ( *line_ptr != '\n') { ... }] from the start of the line buffer,
    [line] being the bytes stored in it.  The loop does not stop at the NUL:
    when gzgets delivered no newline it goes on into what earlier lines
    left, and behind the stored bytes into indeterminate ones. *)
Fixpoint copy_line (line : list ascii) (f : fasta_t) : result fasta_t :=
  match line with
  | [] => Stop NoNewline
  | c :: rest =>
      if Ascii.eqb c newline then Ret f
      else do f' <- push f c; copy_line rest f'
  end.

(** One turn of the reading loop on the line buffer as gzgets left it: the
    line is skipped or copied, then the room left is checked. *)
Definition read_line (line : list ascii) (f : fasta_t) : result fasta_t :=
  do f' <- match line with
           | c :: _ => if Ascii.eqb c ">"%char then Ret f else copy_line line f
           | [] => copy_line line f
           end;
  if decide (cur_length f' + line_buffer_length > max_length f')
  then Stop (BufferTooSmall (cur_length f') (max_length f'))
  else Ret f'.

(** The reading loop over the lines gzgets delivers until it returns NULL. *)
Fixpoint read_lines (lines : list (list ascii)) (line_buffer : list ascii) (f : fasta_t)
  : result fasta_t :=
  match lines with
  | [] => Ret f
  | line :: rest =>
      let line_buffer' := gzgets line_buffer line in
      do f' <- read_line line_buffer' f; read_lines rest line_buffer' f'
  end.

(** The state ingestion keeps between two lines: the cursor is at the end of
    the data and a full line buffer of room is left in the block. *)
Definition roomy (f : fasta_t) : Prop :=
  seq_ptr f = cur_length f /\ 0 <= cur_length f /\
  max_length f = Z.of_nat (length (sequence f)) /\
  cur_length f + line_buffer_length <= max_length f.

(** [fasta_read_file]: a file is the list of lines gzgets would deliver, or
    [None] when gzopen fails.  The line buffer is a local of the call:
    nothing is stored in it on entry. *)
Definition fasta_read_file (file : option (list (list ascii))) (f : fasta_t)
  : result fasta_t :=
  match file with
  | None => Stop CantOpen
  | Some lines => read_lines lines [] f
  end.

End Fasta.

(** ** The scan worker and the fork-join driver *)

(** [parallel_match] is modelled in two halves, the loop over the start
    offsets and the merge into the global counters.  In verbose mode the loop
    calls [bytes_around] at every match; that function clamps what it reads to
    the data and writes to stdout only, so it is left out.  pthread_create,
    pthread_join and pthread_mutex_init are taken to succeed; when one fails,
    [check_thread_rtn] exits before any total is printed. *)

Module Scan.

(** One pass through the body of the worker's loop, kept as ghost state:
    the start offset tested, the buffer offsets strncmp looked at, and
    whether it reported equality.  In verbose mode the program prints the
    offset of every entry with [at_match = true]. *)
Record attempt : Type := {
  at_offset : Z;
  at_reads : list Z;
  at_match : bool
}.

(** The local variables of [parallel_match]. *)
Record local_t : Type := {
  cur_location : Z;
  local_count : Z;
  local_trial : Z;
  log : list attempt
}.

(** [int pattern_length = strlen(pattern)].  Command-line arguments are far
    shorter than [INT_MAX], so the conversion to [int] and back to [size_t]
    is the identity. *)
Definition pattern_length (g : globals) : nat := CString.strlen (pattern g).

(** [last_location = ptr + chunk_size-1] *)
Definition last_location (g : globals) (ptr : Z) : Z := ptr + chunk_size g - 1.

Definition enter (ptr : Z) : local_t :=
  {| cur_location := ptr; local_count := 0; local_trial := 0; log := [] |}.

(** [strncmp(cur_location, pattern, pattern_length)] at offset [o]. *)
Definition probe (g : globals) (o : Z) : result (bool * list Z) :=
  CString.strncmp (sequence (fasta g)) o (pattern g) (pattern_length g).

(** The body of [while (cur_location <= last_location)]. *)
Definition loop_body (g : globals) (l : local_t) : result local_t :=
  do r <- probe g (cur_location l);
  Ret {| cur_location := cur_location l + 1;
         local_count := if fst r then local_count l + 1 else local_count l;
         local_trial := local_trial l + 1;
         log := log l ++ [ {| at_offset := cur_location l;
                              at_reads := snd r;
                              at_match := fst r |} ] |}.

Fixpoint loop (fuel : nat) (g : globals) (last : Z) (l : local_t) : result local_t :=
  match fuel with
  | O => Stop OutOfFuel
  | S fuel' =>
      if decide (cur_location l <= last) then
        do l' <- loop_body g l; loop fuel' g last l'
      else Ret l
  end.

(** The scanning half of [parallel_match(ptr)]: the locals when the loop is
    left. *)
Definition scan (g : globals) (ptr : Z) : result local_t :=
  loop (S (Z.to_nat (chunk_size g))) g (last_location g ptr) (enter ptr).

(** The merging half: both additions inside one critical section. *)
Definition merge (g : globals) (l : local_t) : globals :=
  set_trial_count (set_match_count g (match_count g + local_count l))
                  (trial_count g + local_trial l).

(** [parallel_match(ptr)] run without interference. *)
Definition parallel_match (g : globals) (ptr : Z) : result globals :=
  do l <- scan g ptr; Ret (merge g l).

(** The argument each thread is created with:
    [for (i = 0; i < num_threads; ++i) { create(match_ptr); match_ptr += chunk_size; }] *)
Fixpoint spawn (n : nat) (g : globals) (match_ptr : Z) : list Z :=
  match n with
  | O => []
  | S n' => match_ptr :: spawn n' g (match_ptr + chunk_size g)
  end.

(** [chunk_size = fasta->cur_length / num_threads], after the declaration of
    [pthread_t threads[num_threads]]. *)
Definition partition (g : globals) : result globals :=
  if decide (num_threads g < 0) then Stop NegativeArray
  else if decide (num_threads g = 0) then Stop DivisionByZero
  else Ret (set_chunk_size g (Z.quot (cur_length (fasta g)) (num_threads g))).

Definition match_ptrs (g : globals) : list Z :=
  spawn (Z.to_nat (num_threads g)) g 0.

(** The workers run one after the other, in the order of their creation. *)
Fixpoint run_workers (ptrs : list Z) (g : globals) : result globals :=
  match ptrs with
  | [] => Ret g
  | ptr :: rest => do g' <- parallel_match g ptr; run_workers rest g'
  end.

(** The "parallel stuff" of [main]: partition, fork, join, when every
    pthread call returns 0; [Run.search] has the checks of what they
    return. *)
Definition search (g : globals) : result globals :=
  do g' <- partition g; run_workers (match_ptrs g') g'.

(** *** Views of a worker's ghost log *)

(** The start offsets a worker tested, in order. *)
Definition tested (l : local_t) : list Z := map at_offset (log l).

(** The start offsets at which it counted a match. *)
Definition hits (l : local_t) : list Z := map at_offset (List.filter at_match (log l)).

(** The buffer offsets it read. *)
Definition reads (l : local_t) : list Z := concat (map at_reads (log l)).

(** The locals of every worker when its loop is left. *)
Fixpoint scan_all (g : globals) (ptrs : list Z) : result (list local_t) :=
  match ptrs with
  | [] => Ret []
  | ptr :: rest =>
      do l <- scan g ptr; do ls <- scan_all g rest; Ret (l :: ls)
  end.

(** *** What the loop computes, in closed form *)

Definition attempt_at (g : globals) (o : Z) : attempt :=
  match probe g o with
  | Ret r => {| at_offset := o; at_reads := snd r; at_match := fst r |}
  | Stop _ => {| at_offset := o; at_reads := []; at_match := false |}
  end.

Definition attempts (g : globals) (from : Z) (n : Z) : list attempt :=
  map (attempt_at g) (seqZ from n).

Definition scan_result (g : globals) (ptr : Z) : local_t :=
  {| cur_location := ptr + chunk_size g;
     local_count := Z.of_nat (length (List.filter at_match (attempts g ptr (chunk_size g))));
     local_trial := chunk_size g;
     log := attempts g ptr (chunk_size g) |}.

(** The call of strncmp returns at every start offset of the data. *)
Definition defined (g : globals) : Prop :=
  forall o, 0 <= o < cur_length (fasta g) -> exists r, probe g o = Ret r.

(** A condition under which it does: [pattern_length - 1] bytes of the heap
    block lie behind the data, so that no call leaves the block. *)
Definition in_block (g : globals) : Prop :=
  cur_length (fasta g) + Z.of_nat (pattern_length g)
    <= Z.of_nat (length (sequence (fasta g))) + 1.

Definition set_num_threads (g : globals) (n : Z) : globals :=
  {| verbose := verbose g; pattern := pattern g; num_threads := n;
     fasta := fasta g; match_count := match_count g; trial_count := trial_count g;
     chunk_size := chunk_size g |}.

(** The pattern occurs in the data at offset [o]. *)
Definition occurrence (g : globals) (o : Z) : Prop :=
  0 <= o /\ o + Z.of_nat (pattern_length g) <= cur_length (fasta g) /\
  take (pattern_length g) (drop (Z.to_nat o) (sequence (fasta g)))
    = take (pattern_length g) (pattern g).

End Scan.

(** ** The threads of the fork-join phase, step by step *)

Module Threads.

(** Where a thread stands inside [parallel_match]. *)
Inductive pc_t : Type :=
| Scanning               (* at the test of the while loop *)
| Locking                (* at pthread_mutex_lock *)
| AddMatch               (* holds the mutex, about to read match_count *)
| PutMatch (r : Z)       (* has read r, about to write r + local_count *)
| AddTrial               (* about to read trial_count *)
| PutTrial (r : Z)       (* has read r, about to write r + local_trial *)
| Unlocking              (* at pthread_mutex_unlock *)
| Returned.              (* parallel_match has returned; the join succeeds *)

Record thread : Type := {
  arg : Z;                 (* the ptr the thread was created with *)
  pc : pc_t;
  locals : Scan.local_t
}.

Record machine : Type := {
  shared : globals;
  mutex : option nat;      (* the thread that holds shared_counter_mutex *)
  threads : list thread
}.

Definition in_critical (p : pc_t) : bool :=
  match p with
  | AddMatch | PutMatch _ | AddTrial | PutTrial _ | Unlocking => true
  | Scanning | Locking | Returned => false
  end.

Definition at_pc (t : thread) (p : pc_t) : thread :=
  {| arg := arg t; pc := p; locals := locals t |}.

Definition move (m : machine) (i : nat) (t : thread) : machine :=
  {| shared := shared m; mutex := mutex m; threads := <[i := t]> (threads m) |}.

(** One step of thread [i]; [None] when it has none: the thread does not
    exist, has returned, waits for the mutex, or would read outside the
    heap block.  [pattern_length] and [last_location] are locals set on
    entry; no step changes [pattern] or [chunk_size], so they are computed
    from the globals where they are used. *)
Definition thread_step (i : nat) (m : machine) : option machine :=
  match threads m !! i with
  | None => None
  | Some t =>
      match pc t with
      | Scanning =>
          if decide (Scan.cur_location (locals t) <= Scan.last_location (shared m) (arg t))
          then match Scan.loop_body (shared m) (locals t) with
               | Ret l' => Some (move m i {| arg := arg t; pc := Scanning; locals := l' |})
               | Stop _ => None
               end
          else Some (move m i (at_pc t Locking))
      | Locking =>
          match mutex m with
          | Some _ => None
          | None => Some {| shared := shared m; mutex := Some i;
                            threads := <[i := at_pc t AddMatch]> (threads m) |}
          end
      | AddMatch => Some (move m i (at_pc t (PutMatch (match_count (shared m)))))
      | PutMatch r =>
          Some {| shared := set_match_count (shared m) (r + Scan.local_count (locals t));
                  mutex := mutex m;
                  threads := <[i := at_pc t AddTrial]> (threads m) |}
      | AddTrial => Some (move m i (at_pc t (PutTrial (trial_count (shared m)))))
      | PutTrial r =>
          Some {| shared := set_trial_count (shared m) (r + Scan.local_trial (locals t));
                  mutex := mutex m;
                  threads := <[i := at_pc t Unlocking]> (threads m) |}
      | Unlocking =>
          Some {| shared := shared m; mutex := None;
                  threads := <[i := at_pc t Returned]> (threads m) |}
      | Returned => None
      end
  end.

(** Any thread may take the next step. *)
Definition step (m m' : machine) : Prop := exists i, thread_step i m = Some m'.

(** The machine when the threads have been created.  A thread that is
    created late is a thread that is scheduled late. *)
Definition boot (g : globals) : machine :=
  {| shared := g; mutex := None;
     threads := map (fun ptr => {| arg := ptr; pc := Scanning; locals := Scan.enter ptr |})
                    (Scan.match_ptrs g) |}.

(** Every pthread_join has returned. *)
Definition joined (m : machine) : Prop :=
  Forall (fun t => pc t = Returned) (threads m).

(** *** What the proofs keep track of *)

(** What a thread has added to each global counter so far. *)
Definition gave_match (t : thread) : Z :=
  match pc t with
  | AddTrial | PutTrial _ | Unlocking | Returned => Scan.local_count (locals t)
  | _ => 0
  end.

Definition gave_trial (t : thread) : Z :=
  match pc t with
  | Unlocking | Returned => Scan.local_trial (locals t)
  | _ => 0
  end.

(** The value a thread has read is still the value of the counter. *)
Definition fresh (g : globals) (t : thread) : Prop :=
  match pc t with
  | PutMatch r => r = match_count g
  | PutTrial r => r = trial_count g
  | _ => True
  end.

(** The thread's locals are a state of the loop of [Scan.scan], and its
    final state once the loop is left. *)
Definition on_track (g : globals) (t : thread) : Prop :=
  match pc t with
  | Scanning =>
      exists k : nat,
        arg t <= Scan.cur_location (locals t) /\
        Scan.last_location g (arg t) + 1 <= Scan.cur_location (locals t) + Z.of_nat k /\
        Scan.loop (S k) g (Scan.last_location g (arg t)) (locals t) = Scan.scan g (arg t)
  | _ => Scan.scan g (arg t) = Ret (locals t)
  end.

Definition invariant (g0 : globals) (m : machine) : Prop :=
  same_input g0 (shared m) /\
  (forall i t, threads m !! i = Some t -> in_critical (pc t) = true -> mutex m = Some i) /\
  (forall i, mutex m = Some i -> exists t, threads m !! i = Some t /\ in_critical (pc t) = true) /\
  match_count (shared m) = match_count g0 + sumZ (map gave_match (threads m)) /\
  trial_count (shared m) = trial_count g0 + sumZ (map gave_trial (threads m)) /\
  (forall i t, threads m !! i = Some t -> fresh (shared m) t /\ on_track g0 t) /\
  map arg (threads m) = Scan.match_ptrs g0.

(** The steps a thread has left when every probe returns. *)
Definition steps_left (g : globals) (t : thread) : nat :=
  match pc t with
  | Scanning =>
      Z.to_nat (Scan.last_location g (arg t) + 1 - Scan.cur_location (locals t)) + 7
  | Locking => 6
  | AddMatch => 5
  | PutMatch _ => 4
  | AddTrial => 3
  | PutTrial _ => 2
  | Unlocking => 1
  | Returned => 0
  end.

Definition work_left (g : globals) (m : machine) : nat :=
  sum_list (map (steps_left g) (threads m)).

#[global] Instance pc_eq_dec : EqDecision pc_t.
Proof. solve_decision. Defined.

(** A schedule names the thread that takes each step. *)
Fixpoint run (schedule : list nat) (m : machine) : option machine :=
  match schedule with
  | [] => Some m
  | i :: rest =>
      match thread_step i m with
      | Some m' => run rest m'
      | None => None
      end
  end.

End Threads.

(** ** main *)

(** What the option loop leaves behind when it runs through, and the files
    named on the command line. *)
Record command_line : Type := {
  opt_verbose : bool;
  opt_max_length : Z;                       (* -b, -m or -g, scaled; 0 if absent *)
  opt_pattern : option (list ascii);        (* -p; NULL if absent *)
  opt_num_threads : Z;                      (* -n through atoi; 1 if absent *)
  files : list (option (list (list ascii)))
}.

Fixpoint read_files (fs : list (option (list (list ascii)))) (f : fasta_t)
  : result fasta_t :=
  match fs with
  | [] => Ret f
  | file :: rest => do f' <- Fasta.fasta_read_file file f; read_files rest f'
  end.

(** [main] from the end of the option loop to the end of the loop over the
    files, when both calls of malloc in [fasta_create] return a block.
    [junk] is what the block of the sequence holds.  The counters and
    [chunk_size] have the values of their initialisers. *)
Definition load_files (junk : nat -> ascii) (cl : command_line) : result globals :=
  match opt_pattern cl with
  | None => Stop Usage
  | Some pat =>
      if decide (opt_max_length cl = 0) then Stop Usage
      else
        do f <- read_files (files cl) (Fasta.fasta_create junk (opt_max_length cl));
        Ret {| verbose := opt_verbose cl; pattern := pat;
               num_threads := opt_num_threads cl; fasta := f;
               match_count := 0; trial_count := 0; chunk_size := 0 |}
  end.

(** [main] from the end of the option loop on, when malloc and the pthread
    calls succeed: the globals when the report is printed.  [Run.main] below
    is [main] without these conditions. *)
Definition main (junk : nat -> ascii) (cl : command_line) : result globals :=
  do g <- load_files junk cl; Scan.search g.

(** ** main with the option loop and the calls that can fail *)

Module Run.

(** How the option loop ends. *)
Inductive options : Type :=
| Help                          (* -h, -?, an unknown option or an option without
                                   its argument: usage() is called in the loop *)
| Parsed (cl : command_line).   (* the loop ran through *)

(** What the system returns to the calls that [main] does not control. *)
Record system : Type := {
  malloc_fasta : bool;          (* malloc(sizeof(fasta_t)) returns a block *)
  malloc_sequence : bool;       (* malloc(max_length) returns a block *)
  mutex_init : Z;               (* pthread_mutex_init *)
  create : nat -> Z;            (* pthread_create for threads[i] *)
  join : nat -> Z               (* pthread_join for threads[i] *)
}.

(** [fasta_create]: neither result of malloc is checked.  With NULL for the
    structure the first assignment stores through NULL; with NULL for the
    sequence the buffer has no byte, and every access to it is outside. *)
Definition fasta_create (s : system) (junk : nat -> ascii) (max_length : Z)
  : result fasta_t :=
  if malloc_fasta s then
    Ret (if malloc_sequence s then Fasta.fasta_create junk max_length
         else {| sequence := []; seq_ptr := 0;
                 max_length := max_length; cur_length := 0 |})
  else Stop NullPointer.

(** [check_thread_rtn(msge, rtn)] *)
Definition check_thread_rtn (msge : string) (rtn : Z) : result unit :=
  if decide (rtn = 0) then Ret tt else Stop (ThreadError msge rtn).

(** [for (int i = 0; i < num_threads; ++i) { rtn = call(i); check_thread_rtn(msge, rtn); }]
    from [i] on, with [n] turns left. *)
Fixpoint check_calls (msge : string) (call : nat -> Z) (i n : nat) : result unit :=
  match n with
  | O => Ret tt
  | S n' => do _ <- check_thread_rtn msge (call i); check_calls msge call (S i) n'
  end.

(** The "parallel stuff" of [main] with its checks.  A call of
    pthread_create that fails ends the program in [check_thread_rtn]; the
    threads created before it are cut off by that exit. *)
Definition search (s : system) (g : globals) : result globals :=
  if decide (num_threads g < 0) then Stop NegativeArray
  else
    do _ <- check_thread_rtn "mutex init" (mutex_init s);
    do g' <- Scan.partition g;
    do _ <- check_calls "create" (create s) 0 (Z.to_nat (num_threads g'));
    do g'' <- Scan.run_workers (Scan.match_ptrs g') g';
    do _ <- check_calls "join" (join s) 0 (Z.to_nat (num_threads g'));
    Ret g''.

(** [main] *)
Definition main (s : system) (junk : nat -> ascii) (o : options) : result globals :=
  match o with
  | Help => Stop Usage
  | Parsed cl =>
      match opt_pattern cl with
      | None => Stop Usage
      | Some pat =>
          if decide (opt_max_length cl = 0) then Stop Usage
          else
            do f0 <- fasta_create s junk (opt_max_length cl);
            do f <- read_files (files cl) f0;
            search s {| verbose := opt_verbose cl; pattern := pat;
                        num_threads := opt_num_threads cl; fasta := f;
                        match_count := 0; trial_count := 0; chunk_size := 0 |}
      end
  end.

(** The option loop or the check behind it calls usage(). *)
Definition asks_usage (o : options) : Prop :=
  match o with
  | Help => True
  | Parsed cl => opt_pattern cl = None \/ opt_max_length cl = 0
  end.

(** The system serves a run with [w] threads: malloc returns blocks and the
    pthread calls of the run return 0. *)
Definition serves (s : system) (w : Z) : Prop :=
  malloc_fasta s = true /\ malloc_sequence s = true /\ mutex_init s = 0 /\
  forall i : nat, Z.of_nat i < w -> create s i = 0 /\ join s i = 0.

End Run.

(** ** The ground truth of the specification *)

Module Spec.

(** The ground truth, in the specification's words and not in the code's: a
    single-threaded linear scan of the buffer's valid bytes [data] that
    tests the start offsets [o] with [o + p <= length data] and counts those
    at which all [p] bytes equal the pattern. *)
Definition occurs_at (data pat : list ascii) (o : nat) : bool :=
  bool_decide ((o + length pat <= length data)%nat /\
               take (length pat) (drop o data) = pat).

Definition single_threaded_scan (data pat : list ascii) : Z :=
  Z.of_nat (length (List.filter (occurs_at data pat) (seq 0 (length data)))).

(** The number of start offsets such a scan tests. *)
Definition single_threaded_attempts (data pat : list ascii) : Z :=
  Z.of_nat (length data + 1 - length pat).

End Spec.

(** ** Concrete runs *)

Module Examples.

(** A block of fresh, zero-filled pages. *)
Definition zeroed : nat -> ascii := fun _ => CString.NUL.

(** A block handed out again by the allocator: its byte 3 still holds a
    ['G'] from an earlier use. *)
Definition stale : nat -> ascii :=
  fun i => if Nat.eqb i 3 then "G"%char else CString.NUL.

Definition chars (s : string) : list ascii := list_ascii_of_string s.

(** A one-line FASTA file, as gzgets delivers it. *)
Definition file (data : string) : option (list (list ascii)) :=
  Some [chars data ++ [Fasta.newline]].

(** [psg -b 2048 -p pat -n w file] *)
Definition psg (pat : string) (w : Z) (data : string) : command_line :=
  {| opt_verbose := false; opt_max_length := 2048;
     opt_pattern := Some (chars pat); opt_num_threads := w;
     files := [file data] |}.

(** The bytes ingestion wrote. *)
Definition data_of (g : globals) : list ascii :=
  take (Z.to_nat (cur_length (fasta g))) (sequence (fasta g)).

(** The globals of [psg -b 2048 -p ACGT -n 2] when the ten bases
    AAAAACGTAA have been loaded into a zeroed block: the occurrence at
    offset 4 ends at offset 7, behind the end of the first of two chunks. *)
Definition spanning : globals :=
  {| verbose := false; pattern := chars "ACGT"; num_threads := 2;
     fasta := {| sequence := chars "AAAAACGTAA" ++ repeat CString.NUL 2038;
                 seq_ptr := 10; max_length := 2048; cur_length := 10 |};
     match_count := 0; trial_count := 0; chunk_size := 0 |}.

(** [spanning] with [chunk_size] set by [main]. *)
Definition partitioned : globals := set_chunk_size spanning 5.

(** A schedule of the two threads of [partitioned]: thread 0 scans its
    chunk and takes the mutex; thread 1 scans while thread 0 adds its
    counts; thread 1 merges when thread 0 has unlocked. *)
Definition schedule : list nat :=
  [0; 0; 0; 0; 0; 0; 0; 1; 0; 1; 0; 1; 0; 1; 0; 1; 0; 1; 1; 1; 1; 1; 1; 1]%nat.

Definition final : Threads.machine :=
  match Threads.run schedule (Threads.boot partitioned) with
  | Some m => m
  | None => Threads.boot partitioned
  end.

End Examples.

(** ** Printing a match: min, max, clamp, print_padding, bytes_around *)

Module Print.

(** What ends a call before it returns. *)
Inductive halt : Type :=
| BogusBounds (low high : Z)     (* clamp: "Bogus bounds" and exit(1) *)
| WildRead (offset : Z).         (* a byte outside the heap block is read *)

Inductive outcome (A : Type) : Type :=
| Done (a : A)
| Halt (why : halt).
Arguments Done {A} a.
Arguments Halt {A} why.

(** What reaches stdout. *)
Inductive out : Type :=
| Char (c : ascii)               (* printf(" "), printf("["), printf("]") *)
| Byte (p : Z) (c : ascii)       (* printf("%c", *p): the byte read at offset p *)
| Offset (n : Z).                (* printf("%15ld\n", n) *)

(** Pointers are compared and moved as addresses, here as offsets from
    [fasta->sequence]; [current - padding_bytes] is the address eight bytes
    lower also where that lies in front of the block. *)
Definition min (a b : Z) : Z := if decide (a < b) then a else b.

Definition max (a b : Z) : Z := if decide (a > b) then a else b.

Definition clamp (value low high : Z) : outcome Z :=
  if decide (low >= high) then Halt (BogusBounds low high)
  else Done (min (max value low) high).

(** [for (int i = 0; i < n; i++) printf(" ");] *)
Definition print_padding (n : Z) : list out := repeat (Char " "%char) (Z.to_nat n).

(** One turn of [for (p = first; p < last; p++)] in [bytes_around]. *)
Definition print_byte (mem : list ascii) (current length p : Z) : outcome (list out) :=
  match Mem.load mem p with
  | Stop _ => Halt (WildRead p)
  | Ret c =>
      Done ((if decide (p = current) then [Char "["%char] else []) ++
            [Byte p c] ++
            (if decide (p = current + length - 1) then [Char "]"%char] else []))
  end.

Fixpoint print_bytes (mem : list ascii) (current length : Z) (ps : list Z)
  : outcome (list out) :=
  match ps with
  | [] => Done []
  | p :: rest =>
      match print_byte mem current length p with
      | Halt why => Halt why
      | Done o =>
          match print_bytes mem current length rest with
          | Halt why => Halt why
          | Done os => Done (o ++ os)
          end
      end
  end.

Definition padding_bytes : Z := 8.

(** [bytes_around(fasta, current, length)], [current] as an offset. *)
Definition bytes_around (f : fasta_t) (current length : Z) : outcome (list out) :=
  let fasta_last := cur_length f in
  match clamp (current - padding_bytes) 0 fasta_last with
  | Halt why => Halt why
  | Done first =>
      match clamp (current + length + padding_bytes) 0 fasta_last with
      | Halt why => Halt why
      | Done last =>
          match print_bytes (sequence f) current length (seqZ first (last - first)) with
          | Halt why => Halt why
          | Done body =>
              Done (print_padding (padding_bytes - (current - first)) ++ body ++
                    print_padding (padding_bytes - (last - (current + length))) ++
                    [Offset current])
          end
      end
  end.

(** The offsets of the bytes a printout shows. *)
Definition shown (os : list out) : list Z :=
  omap (fun o => match o with Byte p _ => Some p | _ => None end) os.

(** The characters of a printout in front of the offset column. *)
Definition columns (os : list out) : nat :=
  length (List.filter (fun o => match o with Offset _ => false | _ => true end) os).

(** The bytes of the block at the offsets [ps], as they are printed. *)
Definition bytes (mem : list ascii) (ps : list Z) : list out :=
  map (fun p => Byte p (default CString.NUL (mem !! Z.to_nat p))) ps.

(** What a worker prints in verbose mode: [bytes_around] at every match. *)
Definition verbose_output (g : globals) (l : Scan.local_t) : list (outcome (list out)) :=
  map (fun o => bytes_around (fasta g) o (Z.of_nat (Scan.pattern_length g))) (Scan.hits l).

End Print.

(** ** Files as lists of text lines *)

Module Ingest.

(** What gzgets delivers for a line of text: its characters and the newline. *)
Definition line_of (data : list ascii) : list ascii := data ++ [Fasta.newline].

(** A line of text that one call of gzgets delivers whole: with its newline
    it has at most [line_buffer_length - 1] characters. *)
Definition text_line (data : list ascii) : Prop :=
  (Fasta.newline ∉ data) /\ Z.of_nat (length (line_of data)) < line_buffer_length.

#[global] Instance text_line_dec (data : list ascii) : Decision (text_line data).
Proof. unfold text_line. apply _. Defined.

(** [line_buffer[0] == '>'] *)
Definition is_annotation (data : list ascii) : bool :=
  match data with
  | c :: _ => Ascii.eqb c ">"%char
  | [] => false
  end.

(** The characters of the lines that are no annotation, end to end. *)
Definition kept (datas : list (list ascii)) : list ascii :=
  concat (List.filter (fun d => negb (is_annotation d)) datas).

(** The buffer with [d] written at the cursor. *)
Definition appended (f : fasta_t) (d : list ascii) : fasta_t :=
  {| sequence := take (Z.to_nat (seq_ptr f)) (sequence f) ++ d ++
                 drop (Z.to_nat (seq_ptr f) + length d) (sequence f);
     seq_ptr := seq_ptr f + Z.of_nat (length d);
     max_length := max_length f;
     cur_length := cur_length f + Z.of_nat (length d) |}.

(** A full line buffer of room is left behind [d]. *)
Definition room_for (f : fasta_t) (d : list ascii) : Prop :=
  cur_length f + Z.of_nat (length d) + line_buffer_length <= max_length f.

End Ingest.

(** ** What stops main *)

Module Causes.

(** The stops of ingestion into a block of [m] bytes. *)
Definition of_reading (m : Z) (why : stop) : Prop :=
  match why with
  | NoNewline | OutOfBounds _ => True
  | BufferTooSmall c m' => m' = m /\ c + line_buffer_length > m
  | _ => False
  end.

(** What a run of [Run.main] must have been like to end in the exit [why]:
    each message of the program names its cause. *)
Definition of_exit (s : Run.system) (o : Run.options) (why : stop) : Prop :=
  match why with
  | Usage => Run.asks_usage o
  | CantOpen => exists cl, o = Run.Parsed cl /\ None ∈ files cl
  | BufferTooSmall c m =>
      exists cl, o = Run.Parsed cl /\ m = opt_max_length cl /\
                 c + line_buffer_length > m
  | ThreadError msge rtn =>
      rtn <> 0 /\
      exists cl, o = Run.Parsed cl /\
        (msge = "mutex init"%string /\ rtn = Run.mutex_init s \/
         exists i : nat, Z.of_nat i < opt_num_threads cl /\
           (msge = "create"%string /\ rtn = Run.create s i \/
            msge = "join"%string /\ rtn = Run.join s i))
  | _ => False
  end.

End Causes.

(** ** More concrete runs *)

Module Runs.

(** A FASTA file: an annotation line and two lines of bases. *)
Definition lines : list (list ascii) :=
  [Examples.chars ">chr1"; Examples.chars "AAAAA"; Examples.chars "CGTAA"].

(** The buffer of [-b 2048] and that of [-b 1030], on zero-filled pages. *)
Definition fresh : fasta_t := Fasta.fasta_create Examples.zeroed 2048.

Definition tight : fasta_t := Fasta.fasta_create Examples.zeroed 1030.

(** [psg -b 2048 -p ACGT -n 2 file] with [lines] in the file. *)
Definition two_workers : command_line :=
  {| opt_verbose := false; opt_max_length := 2048;
     opt_pattern := Some (Examples.chars "ACGT"); opt_num_threads := 2;
     files := [Some (map Ingest.line_of lines)] |}.

(** The same with a second file that cannot be opened. *)
Definition missing_file : command_line :=
  {| opt_verbose := false; opt_max_length := 2048;
     opt_pattern := Some (Examples.chars "ACGT"); opt_num_threads := 2;
     files := [Some (map Ingest.line_of lines); None] |}.

(** [Examples.partitioned] with [-p ""]. *)
Definition no_pattern : globals :=
  {| verbose := false; pattern := []; num_threads := 2;
     fasta := fasta Examples.spanning;
     match_count := 0; trial_count := 0; chunk_size := 0 |}.

(** [Examples.spanning] with [-n 16]: more workers than bytes. *)
Definition crowded : globals := Scan.set_num_threads Examples.spanning 16.

(** The locals of the first worker of [Examples.partitioned] at the end of
    its loop. *)
Definition first_worker : Scan.local_t := Scan.scan_result Examples.partitioned 0.

(** A system that serves every call. *)
Definition obliging : Run.system :=
  {| Run.malloc_fasta := true; Run.malloc_sequence := true; Run.mutex_init := 0;
     Run.create := fun _ => 0; Run.join := fun _ => 0 |}.

(** A system with one thread to give: the second pthread_create returns
    EAGAIN, which is 11. *)
Definition one_thread : Run.system :=
  {| Run.malloc_fasta := true; Run.malloc_sequence := true; Run.mutex_init := 0;
     Run.create := fun i => if Nat.eqb i 0 then 0 else 11; Run.join := fun _ => 0 |}.

End Runs.

(** * Properties *)

Module CStringFacts.
Import CString.

Lemma load_Ret mem i c :
  Mem.load mem i = Ret c <-> 0 <= i /\ mem !! Z.to_nat i = Some c.
Proof.
  unfold Mem.load. destruct (decide (0 <= i)).
  - destruct (mem !! Z.to_nat i) as [c'|]; split.
    + by intros [= ->].
    + by intros [_ [= ->]].
    + discriminate.
    + by intros [_ ?].
  - split; [discriminate | lia].
Qed.

Lemma load_in_bounds mem i :
  0 <= i < Z.of_nat (length mem) -> exists c, Mem.load mem i = Ret c.
Proof.
  intros H. unfold Mem.load. rewrite decide_True by lia.
  destruct (lookup_lt_is_Some_2 mem (Z.to_nat i)) as [c Hc]; [lia|].
  rewrite Hc. eauto.
Qed.

(** The characters in front of the terminator. *)
Lemma strlen_le s : (strlen s <= length s)%nat.
Proof. induction s as [|c s IH]; simpl; [lia|]. destruct (Ascii.eqb c NUL); simpl; lia. Qed.

Lemma strlen_no_NUL s : NUL ∉ s -> strlen s = length s.
Proof.
  induction s as [|c s IH]; simpl; [done|]. intros H.
  apply not_elem_of_cons in H as [Hc Hs].
  destruct (Ascii.eqb_spec c NUL); [congruence|]. by rewrite IH.
Qed.

Lemma strlen_cons s n :
  (S n <= strlen s)%nat -> exists c s', s = c :: s' /\ c <> NUL /\ (n <= strlen s')%nat.
Proof.
  destruct s as [|c s']; simpl; [lia|].
  destruct (Ascii.eqb_spec c NUL); [lia|]. intros H. exists c, s'. repeat split; [done|lia].
Qed.

(** strncmp looks at consecutive bytes, at least one and at most [n]. *)
Lemma strncmp_reads mem s2 n : forall s1 b rs,
  strncmp mem s1 s2 n = Ret (b, rs) ->
  rs = seqZ s1 (Z.of_nat (length rs)) /\ (length rs <= n)%nat /\ (0 < n -> 0 < length rs)%nat.
Proof.
  revert s2. induction n as [|n IH]; intros s2 s1 b rs; simpl.
  - intros [= <- <-]. simpl. split; [done|lia].
  - destruct (Mem.load mem s1) as [c1|] eqn:E1; simpl; [|discriminate].
    destruct (Ascii.eqb c1 (hd NUL s2)).
    + destruct (Ascii.eqb c1 NUL).
      * intros [= <- <-]. simpl. split; [done|lia].
      * destruct (strncmp mem (s1 + 1) (tl s2) n) as [[b' rs']|] eqn:E2; simpl; [|discriminate].
        intros [= <- <-]. apply IH in E2 as (Hrs & Hlen & _). simpl.
        split; [|lia]. rewrite seqZ_cons by lia. f_equal.
        replace (Z.succ s1) with (s1 + 1) by lia.
        replace (Z.pred (Z.of_nat (S (length rs')))) with (Z.of_nat (length rs')) by lia.
        done.
    + intros [= <- <-]. simpl. split; [done|lia].
Qed.

(** Inside the block strncmp returns. *)
Lemma strncmp_in_bounds mem s2 n : forall s1,
  0 <= s1 -> s1 + Z.of_nat n <= Z.of_nat (length mem) ->
  exists r, strncmp mem s1 s2 n = Ret r.
Proof.
  revert s2. induction n as [|n IH]; intros s2 s1 H0 H1; simpl; [eauto|].
  destruct (load_in_bounds mem s1) as [c1 ->]; [lia|]. simpl.
  destruct (Ascii.eqb c1 (hd NUL s2)); [|eauto].
  destruct (Ascii.eqb c1 NUL); [eauto|].
  destruct (IH (tl s2) (s1 + 1)) as [r ->]; [lia..|]. simpl. eauto.
Qed.

(** Against a string of at least [n] characters strncmp reports equality
    exactly when the [n] bytes at [s1] are the first [n] of the string. *)
Lemma strncmp_equal mem n : forall s2 s1 b rs,
  (n <= strlen s2)%nat -> 0 <= s1 ->
  strncmp mem s1 s2 n = Ret (b, rs) ->
  b = bool_decide (take n (drop (Z.to_nat s1) mem) = take n s2).
Proof.
  induction n as [|n IH]; intros s2 s1 b rs Hn H0; simpl.
  - intros [= <- <-]. done.
  - destruct (strlen_cons _ _ Hn) as (c2 & s2' & -> & Hc2 & Hn').
    destruct (Mem.load mem s1) as [c1|] eqn:E1; simpl; [|discriminate].
    apply load_Ret in E1 as [_ E1].
    rewrite (drop_S _ _ _ E1). simpl.
    destruct (Ascii.eqb_spec c1 c2) as [->|Hne].
    + destruct (Ascii.eqb_spec c2 NUL); [done|].
      destruct (strncmp mem (s1 + 1) s2' n) as [[b' rs']|] eqn:E2; simpl; [|discriminate].
      intros [= <- <-]. apply IH in E2; [|done|lia].
      replace (Z.to_nat (s1 + 1)) with (S (Z.to_nat s1)) in E2 by lia.
      rewrite E2. apply bool_decide_ext. split; [congruence|]. by intros [= ->].
    + intros [= <- <-]. symmetry. apply bool_decide_eq_false_2. congruence.
Qed.

(** When it reports equality it has looked at all [n] bytes. *)
Lemma strncmp_equal_reads mem n : forall s2 s1 rs,
  (n <= strlen s2)%nat ->
  strncmp mem s1 s2 n = Ret (true, rs) -> rs = seqZ s1 (Z.of_nat n).
Proof.
  induction n as [|n IH]; intros s2 s1 rs Hn; simpl.
  - by intros [= <-].
  - destruct (strlen_cons _ _ Hn) as (c2 & s2' & -> & Hc2 & Hn').
    destruct (Mem.load mem s1) as [c1|] eqn:E1; simpl; [|discriminate].
    destruct (Ascii.eqb_spec c1 c2) as [->|Hne]; [|discriminate].
    destruct (Ascii.eqb_spec c2 NUL); [done|].
    destruct (strncmp mem (s1 + 1) s2' n) as [[b' rs']|] eqn:E2; simpl; [|discriminate].
    intros [= -> <-]. apply IH in E2; [|done]. subst rs'.
    rewrite (seqZ_cons s1) by lia. f_equal. f_equal; lia.
Qed.

(** With a NUL in the block at offset [L], a comparison that starts at or in
    front of [L] and would run past it stops there at the latest, and reports
    a difference. *)
Lemma strncmp_terminated mem (L : nat) n : forall s2 s1,
  mem !! L = Some NUL -> (n <= strlen s2)%nat ->
  0 <= s1 <= Z.of_nat L -> Z.of_nat L < s1 + Z.of_nat n ->
  exists rs, strncmp mem s1 s2 n = Ret (false, rs) /\
             Forall (fun r => s1 <= r <= Z.of_nat L) rs.
Proof.
  induction n as [|n IH]; intros s2 s1 HL Hn Hs1 Hend; [lia|]. simpl.
  destruct (strlen_cons _ _ Hn) as (c2 & s2' & -> & Hc2 & Hn').
  destruct (load_in_bounds mem s1) as [c1 Hc1].
  { apply lookup_lt_Some in HL. lia. }
  rewrite Hc1. simpl. apply load_Ret in Hc1 as [_ Hc1].
  destruct (Ascii.eqb_spec c1 c2) as [->|Hne].
  - destruct (Ascii.eqb_spec c2 NUL); [done|].
    assert (s1 < Z.of_nat L) as Hlt.
    { destruct (decide (s1 = Z.of_nat L)) as [->|]; [|lia].
      rewrite Nat2Z.id in Hc1. congruence. }
    destruct (IH s2' (s1 + 1)) as (rs & -> & Hrs); [done|done|lia|lia|].
    simpl. eexists. split; [done|]. constructor; [lia|].
    eapply Forall_impl; [apply Hrs|]. simpl. lia.
  - eexists. split; [done|]. constructor; [lia|constructor].
Qed.
End CStringFacts.

(** ** Ingestion *)

Module FastaFacts.
Import Fasta.

Lemma push_Ret f c :
  0 <= seq_ptr f < Z.of_nat (length (sequence f)) ->
  push f c = Ret {| sequence := <[Z.to_nat (seq_ptr f) := c]> (sequence f);
                    seq_ptr := seq_ptr f + 1;
                    max_length := max_length f;
                    cur_length := cur_length f + 1 |}.
Proof. intros H. unfold push, Mem.store. by rewrite decide_True by done. Qed.

(** The copy loop on a line with its newline: the bytes in front of the
    newline land at the cursor, in order; the block keeps its size, the
    bytes in front of the cursor and the bytes behind the copy are as
    before. *)
Lemma copy_line_spec data : forall f,
  newline ∉ data ->
  0 <= seq_ptr f -> seq_ptr f + Z.of_nat (length data) <= Z.of_nat (length (sequence f)) ->
  exists f',
    copy_line (data ++ [newline]) f = Ret f' /\
    seq_ptr f' = seq_ptr f + Z.of_nat (length data) /\
    cur_length f' = cur_length f + Z.of_nat (length data) /\
    max_length f' = max_length f /\
    length (sequence f') = length (sequence f) /\
    take (Z.to_nat (seq_ptr f')) (sequence f')
      = take (Z.to_nat (seq_ptr f)) (sequence f) ++ data /\
    drop (Z.to_nat (seq_ptr f')) (sequence f') = drop (Z.to_nat (seq_ptr f')) (sequence f).
Proof.
  induction data as [|c data IH]; intros f Hnl Hp Hroom; simpl.
  - exists f. rewrite !Z.add_0_r, app_nil_r. done.
  - apply not_elem_of_cons in Hnl as [Hc Hnl]. simpl in Hroom.
    destruct (Ascii.eqb_spec c newline) as [|_]; [done|].
    rewrite push_Ret by lia. simpl.
    set (f1 := {| sequence := <[Z.to_nat (seq_ptr f) := c]> (sequence f);
                  seq_ptr := seq_ptr f + 1; max_length := max_length f;
                  cur_length := cur_length f + 1 |}).
    destruct (IH f1) as (f' & Hcopy & Hsp & Hcl & Hml & Hlen & Htake & Hdrop);
      [done|simpl; lia|simpl; rewrite length_insert; lia|].
    simpl in *. exists f'. rewrite length_insert in Hlen.
    split; [done|]. split; [lia|]. split; [lia|]. split; [done|]. split; [done|].
    replace (Z.to_nat (seq_ptr f + 1)) with (S (Z.to_nat (seq_ptr f))) in Htake by lia.
    split.
    + rewrite Htake.
      rewrite (take_S_r _ _ c), take_insert_ge by
        first [lia | apply list_lookup_insert_eq; lia].
      by rewrite <- app_assoc.
    + rewrite Hdrop. apply drop_insert_lt. lia.
Qed.

(** Ingestion never moves [cur_length] back. *)
Lemma copy_line_grows line : forall f f',
  copy_line line f = Ret f' -> cur_length f <= cur_length f'.
Proof.
  induction line as [|c line IH]; intros f f'; simpl; [done|].
  destruct (Ascii.eqb c newline); [intros [= <-]; lia|].
  unfold push. destruct (Mem.store _ _ _) as [mem|]; simpl; [|done].
  intros H. apply IH in H. simpl in H. lia.
Qed.

Lemma read_line_grows line f f' :
  read_line line f = Ret f' -> cur_length f <= cur_length f'.
Proof.
  unfold read_line. intros H.
  assert (forall r, (do f1 <- r;
                     if decide (cur_length f1 + line_buffer_length > max_length f1)
                     then Stop (BufferTooSmall (cur_length f1) (max_length f1))
                     else Ret f1) = Ret f' -> r = Ret f') as Hr.
  { intros [f1|w]; simpl; [|done]. destruct (decide _); [done|]. by intros [= ->]. }
  apply Hr in H. destruct line as [|c line].
  - by apply copy_line_grows in H.
  - destruct (Ascii.eqb c ">"%char); [injection H as <-; lia|by apply copy_line_grows in H].
Qed.

Lemma read_lines_grows lines : forall b f f',
  read_lines lines b f = Ret f' -> cur_length f <= cur_length f'.
Proof.
  induction lines as [|line lines IH]; intros b f f'; simpl; [intros [= <-]; lia|].
  destruct (read_line (gzgets b line) f) as [f1|] eqn:E; simpl; [|done].
  intros H. apply read_line_grows in E. apply IH in H. lia.
Qed.

(** What lies behind the newline in the line buffer plays no part. *)
Lemma copy_line_rest data rest : forall f,
  copy_line (data ++ newline :: rest) f = copy_line (data ++ [newline]) f.
Proof.
  induction data as [|c data IH]; intros f; simpl; [done|].
  destruct (Ascii.eqb c newline); [done|].
  destruct (push f c) as [f1|]; simpl; [apply IH|done].
Qed.

Lemma read_line_rest data rest f :
  read_line (data ++ newline :: rest) f = read_line (data ++ [newline]) f.
Proof.
  unfold read_line. destruct data as [|c data]; simpl; [done|].
  destruct (Ascii.eqb c ">"%char); [done|].
  destruct (Ascii.eqb c newline); [done|].
  destruct (push f c) as [f1|]; simpl; [by rewrite copy_line_rest|done].
Qed.

(** So a line that gzgets delivers with its newline is read in the same way
    whatever the line buffer held before. *)
Lemma read_line_gzgets b data f :
  read_line (gzgets b (data ++ [newline])) f = read_line (data ++ [newline]) f.
Proof. unfold gzgets. rewrite <- app_assoc. apply read_line_rest. Qed.

End FastaFacts.

Lemma read_files_grows fs : forall f f',
  read_files fs f = Ret f' -> cur_length f <= cur_length f'.
Proof.
  induction fs as [|file fs IH]; intros f f'; simpl; [intros [= <-]; lia|].
  destruct (Fasta.fasta_read_file file f) as [f1|] eqn:E; simpl; [|done].
  intros H. apply IH in H. destruct file as [lines|]; [|done].
  apply FastaFacts.read_lines_grows in E. lia.
Qed.

(** ** Appending to the sequence buffer (C7) *)

(** C7 as stated fails: with capacity 1024 the four bases of a first line fit
    easily, yet reading that line ends in the fatal "fasta buffer too small"
    exit. *)
Lemma append_fails_although_it_fits :
  let f := Fasta.fasta_create Examples.zeroed 1024 in
  let line := Fasta.gzgets [] (Examples.chars "ACGT" ++ [Fasta.newline]) in
  Fasta.read_line line f = Stop (BufferTooSmall 4 1024) /\
  ~ (cur_length f + 4 > max_length f).
Proof. split; [by vm_compute|]. simpl. lia. Qed.

(** The first line of a run is copied before any room is checked: into a
    block of two bytes the copy loop writes at offset 2. *)
Lemma first_line_is_copied_unchecked :
  Fasta.read_line (Fasta.gzgets [] (Examples.chars "ACGT" ++ [Fasta.newline]))
                  (Fasta.fasta_create Examples.zeroed 2) = Stop (OutOfBounds 2).
Proof. by vm_compute. Qed.

(** C7, amended: when a full line buffer of room is left in the block (the
    state ingestion keeps after every line it accepts), reading a data line of
    [n] bytes that gzgets delivers with its newline ([n + 1] characters, at
    most [line_buffer_length - 1]) copies all [n] bytes at the cursor, in
    order, and writes nothing else, whatever the line buffer held before; it
    ends in the fatal "fasta buffer too small" exit if and only if fewer than
    [line_buffer_length] bytes of capacity remain behind the new data, and
    otherwise leaves a full line buffer of room again.  No byte outside the
    block is written in either case. *)
Theorem append_copies_or_exits (f : fasta_t) (stale data : list ascii) :
  Fasta.roomy f ->
  Fasta.newline ∉ data -> hd Fasta.newline data <> ">"%char ->
  Z.of_nat (length data) + 1 < line_buffer_length ->
  let n := Z.of_nat (length data) in
  let line := Fasta.gzgets stale (data ++ [Fasta.newline]) in
  exists f',
    Fasta.copy_line line f = Ret f' /\
    cur_length f' = cur_length f + n /\ seq_ptr f' = cur_length f' /\
    max_length f' = max_length f /\ length (sequence f') = length (sequence f) /\
    take (Z.to_nat (cur_length f')) (sequence f')
      = take (Z.to_nat (cur_length f)) (sequence f) ++ data /\
    drop (Z.to_nat (cur_length f')) (sequence f')
      = drop (Z.to_nat (cur_length f')) (sequence f) /\
    (cur_length f + n + line_buffer_length > max_length f ->
       Fasta.read_line line f = Stop (BufferTooSmall (cur_length f') (max_length f'))) /\
    (cur_length f + n + line_buffer_length <= max_length f ->
       Fasta.read_line line f = Ret f' /\ Fasta.roomy f').
Proof.
  intros (Hsp & Hcl & Hml & Hroom) Hnl Hhd Hn n line.
  assert (Fasta.copy_line line f = Fasta.copy_line (data ++ [Fasta.newline]) f) as ->.
  { subst line. unfold Fasta.gzgets. rewrite <- app_assoc.
    apply FastaFacts.copy_line_rest. }
  assert (Fasta.read_line line f = Fasta.read_line (data ++ [Fasta.newline]) f) as ->
    by apply FastaFacts.read_line_gzgets.
  clearbody line. clear line.
  set (line := data ++ [Fasta.newline]).
  destruct (FastaFacts.copy_line_spec data f Hnl) as
    (f' & Hcopy & Hsp' & Hcl' & Hml' & Hlen & Htake & Hdrop); [lia..|].
  assert (seq_ptr f' = cur_length f') as Heq by lia.
  rewrite Heq in Htake, Hdrop. rewrite Hsp in Htake.
  exists f'. repeat (split; [done|]).
  assert (Fasta.read_line line f =
          if decide (cur_length f' + line_buffer_length > max_length f')
          then Stop (BufferTooSmall (cur_length f') (max_length f')) else Ret f') as Hread.
  { unfold Fasta.read_line. subst line. destruct data as [|c data]; simpl in *.
    - by injection Hcopy as <-.
    - destruct (Ascii.eqb_spec c ">"%char) as [|_]; [done|].
      simpl in Hcopy. by rewrite Hcopy. }
  rewrite Hread. split; intros H.
  - rewrite decide_True by lia. done.
  - rewrite decide_False by lia. split; [done|]. unfold Fasta.roomy. lia.
Qed.

(** ** The scan *)

Module ScanFacts.
Import Scan.

Lemma probe_stop g o why :
  probe g o = Stop why -> exists i, why = OutOfBounds i.
Proof.
  unfold probe. generalize (pattern g), (pattern_length g). intros s2 n.
  revert s2 o. induction n as [|n IH]; intros s2 o; simpl; [discriminate|].
  unfold Mem.load. destruct (decide (0 <= o)); simpl; [|intros [= <-]; eauto].
  destruct (sequence (fasta g) !! Z.to_nat o) as [c1|]; simpl; [|intros [= <-]; eauto].
  destruct (Ascii.eqb c1 (hd CString.NUL s2)); [|discriminate].
  destruct (Ascii.eqb c1 CString.NUL); [discriminate|].
  destruct (CString.strncmp _ (o + 1) (tl s2) n) as [r|w] eqn:E; simpl; [discriminate|].
  intros [= <-]. eauto.
Qed.

Lemma attempt_at_Ret g o r :
  probe g o = Ret r ->
  attempt_at g o = {| at_offset := o; at_reads := snd r; at_match := fst r |}.
Proof. unfold attempt_at. by intros ->. Qed.

Lemma attempt_at_offset g o : at_offset (attempt_at g o) = o.
Proof. unfold attempt_at. by destruct (probe g o). Qed.

Lemma loop_body_Ret g l r :
  probe g (cur_location l) = Ret r ->
  loop_body g l =
    Ret {| cur_location := cur_location l + 1;
           local_count := if at_match (attempt_at g (cur_location l))
                          then local_count l + 1 else local_count l;
           local_trial := local_trial l + 1;
           log := log l ++ [attempt_at g (cur_location l)] |}.
Proof. intros H. unfold loop_body. rewrite (attempt_at_Ret _ _ _ H), H. done. Qed.

(** The loop from any of its states: [n] more turns. *)
Lemma loop_run g last (n : nat) : forall fuel l,
  cur_location l + Z.of_nat n = last + 1 -> (n < fuel)%nat ->
  (forall o, cur_location l <= o <= last -> exists r, probe g o = Ret r) ->
  loop fuel g last l =
    Ret {| cur_location := last + 1;
           local_count := local_count l + Z.of_nat (length
                (List.filter at_match (attempts g (cur_location l) (Z.of_nat n))));
           local_trial := local_trial l + Z.of_nat n;
           log := log l ++ attempts g (cur_location l) (Z.of_nat n) |}.
Proof.
  induction n as [|n IH]; intros fuel l Hn Hf Hp;
    (destruct fuel as [|fuel]; [lia|]); simpl.
  - rewrite decide_False by lia. unfold attempts. simpl.
    rewrite app_nil_r, !Z.add_0_r. destruct l; simpl in *. f_equal. f_equal. lia.
  - rewrite decide_True by lia.
    destruct (Hp (cur_location l)) as [r Hr]; [lia|].
    rewrite (loop_body_Ret _ _ _ Hr). simpl.
    rewrite IH; simpl; [|lia|lia|intros o Ho; apply Hp; lia].
    unfold attempts. rewrite (seqZ_cons (cur_location l)) by lia. simpl.
    replace (Z.pred (Z.of_nat (S n))) with (Z.of_nat n) by lia.
    replace (Z.succ (cur_location l)) with (cur_location l + 1) by lia.
    rewrite <- app_assoc. simpl. f_equal. f_equal; [|lia].
    destruct (at_match (attempt_at g (cur_location l))); simpl; lia.
Qed.

(** The loop is left by its test, never by the bound of the model. *)
Lemma loop_fuel g last (n : nat) : forall fuel l,
  last + 1 <= cur_location l + Z.of_nat n -> (n < fuel)%nat ->
  loop fuel g last l <> Stop OutOfFuel.
Proof.
  induction n as [|n IH]; intros fuel l Hn Hf;
    (destruct fuel as [|fuel]; [lia|]); simpl.
  - by rewrite decide_False by lia.
  - destruct (decide (cur_location l <= last)); [|done].
    unfold loop_body. destruct (probe g (cur_location l)) as [r|w] eqn:E; simpl.
    + apply IH; simpl; lia.
    + apply probe_stop in E as [i ->]. done.
Qed.

Lemma scan_fuel g ptr : scan g ptr <> Stop OutOfFuel.
Proof. apply (loop_fuel _ _ (Z.to_nat (chunk_size g))); unfold last_location; simpl; lia. Qed.

Lemma scan_spec g ptr :
  0 <= chunk_size g ->
  (forall o, ptr <= o < ptr + chunk_size g -> exists r, probe g o = Ret r) ->
  scan g ptr = Ret (scan_result g ptr).
Proof.
  intros Hc Hp. unfold scan.
  rewrite (loop_run _ _ (Z.to_nat (chunk_size g))); unfold last_location; simpl; [|lia|lia|].
  - rewrite Z2Nat.id by lia. unfold scan_result. f_equal. f_equal; lia.
  - intros o Ho. apply Hp. lia.
Qed.

(** The start offsets a worker tests do not depend on what it reads: when
    the loop is left by its test they are the offsets of the chunk. *)
Lemma loop_tested g last (n : nat) : forall fuel l0 l,
  cur_location l0 + Z.of_nat n = last + 1 -> (n < fuel)%nat ->
  loop fuel g last l0 = Ret l ->
  tested l = tested l0 ++ seqZ (cur_location l0) (Z.of_nat n).
Proof.
  induction n as [|n IH]; intros fuel l0 l Hn Hf;
    (destruct fuel as [|fuel]; [lia|]); simpl.
  - rewrite decide_False by lia. intros [= <-]. by rewrite app_nil_r.
  - rewrite decide_True by lia. unfold loop_body.
    destruct (probe g (cur_location l0)) as [r|] eqn:Hr; simpl; [|done].
    intros H. apply IH in H; simpl; [|lia..]. rewrite H. unfold tested. simpl.
    rewrite map_app, <- app_assoc. simpl. f_equal.
    rewrite (seqZ_cons (cur_location l0)) by lia. f_equal. f_equal; lia.
Qed.

Lemma scan_tested g ptr l :
  0 <= chunk_size g -> scan g ptr = Ret l -> tested l = seqZ ptr (chunk_size g).
Proof.
  intros Hc H. unfold scan in H.
  apply (loop_tested _ _ (Z.to_nat (chunk_size g))) in H;
    unfold last_location; simpl; [|lia..].
  rewrite H. simpl. by rewrite Z2Nat.id by lia.
Qed.

(** In a block with [in_block] every probe below [cur_length] returns. *)
Lemma in_block_defined g : in_block g -> defined g.
Proof.
  unfold in_block. intros Hb o Ho. apply CStringFacts.strncmp_in_bounds; lia.
Qed.



(** *** The counters are no input of the scan *)

Lemma probe_frame g g' o : same_input g g' -> probe g' o = probe g o.
Proof. intros (_ & Hp & _ & Hf & _). unfold probe, pattern_length. by rewrite Hp, Hf. Qed.

Lemma loop_frame g g' last fuel : forall l,
  same_input g g' -> loop fuel g' last l = loop fuel g last l.
Proof.
  induction fuel as [|fuel IH]; intros l H; simpl; [done|].
  destruct (decide (cur_location l <= last)); [|done].
  unfold loop_body. rewrite (probe_frame _ _ _ H).
  destruct (probe g (cur_location l)); simpl; [|done]. by apply IH.
Qed.

Lemma scan_frame g g' ptr : same_input g g' -> scan g' ptr = scan g ptr.
Proof.
  intros H. unfold scan, last_location.
  pose proof H as (_ & _ & _ & _ & Hc). rewrite Hc. by apply loop_frame.
Qed.

Lemma same_input_refl g : same_input g g.
Proof. by unfold same_input. Qed.

Lemma same_input_trans g1 g2 g3 :
  same_input g1 g2 -> same_input g2 g3 -> same_input g1 g3.
Proof. unfold same_input. intros (?&?&?&?&?) (?&?&?&?&?). repeat split; congruence. Qed.

Lemma merge_frame g l : same_input g (merge g l).
Proof. by unfold same_input. Qed.

(** *** All workers *)

Lemma merge_all_frame ls : forall g, same_input g (fold_left merge ls g).
Proof.
  induction ls as [|l ls IH]; intros g; simpl; [apply same_input_refl|].
  eapply same_input_trans; [apply (merge_frame g l)|apply IH].
Qed.

Lemma merge_all_match_count ls : forall g,
  match_count (fold_left merge ls g) = match_count g + sumZ (map local_count ls).
Proof.
  induction ls as [|l ls IH]; intros g; simpl; [lia|]. rewrite IH. simpl. lia.
Qed.

Lemma merge_all_trial_count ls : forall g,
  trial_count (fold_left merge ls g) = trial_count g + sumZ (map local_trial ls).
Proof.
  induction ls as [|l ls IH]; intros g; simpl; [lia|]. rewrite IH. simpl. lia.
Qed.

(** Running the workers in turn merges the locals each of them reaches. *)
Lemma run_workers_scan_all ptrs : forall g0 g,
  same_input g0 g ->
  run_workers ptrs g = do ls <- scan_all g0 ptrs; Ret (fold_left merge ls g).
Proof.
  induction ptrs as [|ptr ptrs IH]; intros g0 g H; simpl; [done|].
  unfold parallel_match. rewrite (scan_frame _ _ _ H).
  destruct (scan g0 ptr) as [l|w]; simpl; [|done].
  rewrite (IH g0 (merge g l)).
  - by destruct (scan_all g0 ptrs).
  - eapply same_input_trans; [apply H|apply merge_frame].
Qed.

Lemma scan_all_spec g ptrs :
  0 <= chunk_size g ->
  (forall ptr o, ptr ∈ ptrs -> ptr <= o < ptr + chunk_size g -> exists r, probe g o = Ret r) ->
  scan_all g ptrs = Ret (map (scan_result g) ptrs).
Proof.
  intros Hc. induction ptrs as [|ptr ptrs IH]; intros Hp; simpl; [done|].
  rewrite scan_spec; [|done|intros o; apply Hp; left]. simpl.
  rewrite IH; [done|]. intros p o Hin. apply Hp. by right.
Qed.

(** *** The partition *)

Lemma spawn_length n g p : length (spawn n g p) = n.
Proof. revert p. induction n as [|n IH]; intros p; simpl; [done|]. by rewrite IH. Qed.

Lemma spawn_lookup n g : forall p i,
  (i < n)%nat -> spawn n g p !! i = Some (p + Z.of_nat i * chunk_size g).
Proof.
  induction n as [|n IH]; intros p i Hi; [lia|]. destruct i as [|i]; simpl.
  - f_equal. lia.
  - rewrite IH by lia. f_equal. lia.
Qed.

Lemma spawn_elem n g p ptr :
  ptr ∈ spawn n g p ->
  exists i, (i < n)%nat /\ ptr = p + Z.of_nat i * chunk_size g.
Proof.
  intros H. apply list_elem_of_lookup in H as [i Hi].
  assert (i < n)%nat as Hlt.
  { apply lookup_lt_Some in Hi. by rewrite spawn_length in Hi. }
  rewrite spawn_lookup in Hi by done. exists i. split; [done|congruence].
Qed.

(** The ranges of the threads, laid end to end, are one range. *)
Lemma spawn_ranges n g : forall p,
  0 <= chunk_size g ->
  concat (map (fun ptr => seqZ ptr (chunk_size g)) (spawn n g p))
    = seqZ p (Z.of_nat n * chunk_size g).
Proof.
  induction n as [|n IH]; intros p Hc; simpl; [done|].
  rewrite IH by done.
  replace (Z.of_nat (S n) * chunk_size g) with (chunk_size g + Z.of_nat n * chunk_size g) by lia.
  rewrite seqZ_app by lia. done.
Qed.

Lemma partition_Ret g :
  1 <= num_threads g -> 0 <= cur_length (fasta g) ->
  partition g = Ret (set_chunk_size g (cur_length (fasta g) / num_threads g)).
Proof.
  intros Hw HL. unfold partition.
  rewrite decide_False by lia. rewrite decide_False by lia.
  rewrite Z.quot_div_nonneg by lia. done.
Qed.

(** *** The totals of the fork-join phase *)

Lemma sum_local_trial g ptrs :
  sumZ (map local_trial (map (scan_result g) ptrs)) = Z.of_nat (length ptrs) * chunk_size g.
Proof. induction ptrs as [|ptr ptrs IH]; simpl; [lia|]. rewrite IH. lia. Qed.

Lemma sum_local_count g ptrs :
  sumZ (map local_count (map (scan_result g) ptrs))
    = Z.of_nat (length (List.filter at_match (map (attempt_at g)
        (concat (map (fun ptr => seqZ ptr (chunk_size g)) ptrs))))).
Proof.
  induction ptrs as [|ptr ptrs IH]; simpl; [done|].
  rewrite IH, map_app, List.filter_app, length_app. unfold attempts. lia.
Qed.

Lemma concat_hits g ptrs :
  concat (map hits (map (scan_result g) ptrs))
    = map at_offset (List.filter at_match (map (attempt_at g)
        (concat (map (fun ptr => seqZ ptr (chunk_size g)) ptrs)))).
Proof.
  induction ptrs as [|ptr ptrs IH]; simpl; [done|].
  rewrite IH, !map_app, List.filter_app, map_app. done.
Qed.

Lemma offsets_of_attempts g os : map at_offset (map (attempt_at g) os) = os.
Proof.
  induction os as [|o os IH]; simpl; [done|]. by rewrite attempt_at_offset, IH.
Qed.

Lemma tested_scan_result g ptr : tested (scan_result g ptr) = seqZ ptr (chunk_size g).
Proof. apply offsets_of_attempts. Qed.

Lemma concat_tested g ptrs :
  concat (map tested (map (scan_result g) ptrs))
    = concat (map (fun ptr => seqZ ptr (chunk_size g)) ptrs).
Proof.
  induction ptrs as [|ptr ptrs IH]; simpl; [done|].
  by rewrite IH, tested_scan_result.
Qed.

(** The workers of a partitioned run all return, each with the closed form
    of its loop. *)
Lemma workers_return g :
  1 <= num_threads g -> 0 <= cur_length (fasta g) -> defined g ->
  chunk_size g = cur_length (fasta g) / num_threads g ->
  scan_all g (match_ptrs g) = Ret (map (scan_result g) (match_ptrs g)).
Proof.
  intros Hw HL Hb Hc.
  assert (0 <= chunk_size g) as Hc0 by (rewrite Hc; apply Z.div_pos; lia).
  apply scan_all_spec; [done|]. intros ptr o Hin Ho.
  apply spawn_elem in Hin as (i & Hi & ->).
  apply Hb.
  assert (num_threads g * chunk_size g <= cur_length (fasta g))
    by (rewrite Hc; apply Z.mul_div_le; lia).
  nia.
Qed.

(** [search] in closed form: every start offset below
    [num_threads * chunk_size] is tested once. *)
Lemma search_spec g :
  1 <= num_threads g -> 0 <= cur_length (fasta g) -> defined g ->
  exists g',
    search g = Ret g' /\
    same_input (set_chunk_size g (cur_length (fasta g) / num_threads g)) g' /\
    trial_count g' = trial_count g
      + num_threads g * (cur_length (fasta g) / num_threads g) /\
    match_count g' = match_count g
      + Z.of_nat (length (List.filter at_match
          (attempts g 0 (num_threads g * (cur_length (fasta g) / num_threads g))))).
Proof.
  intros Hw HL Hb. unfold search. rewrite partition_Ret by done. simpl.
  set (c := cur_length (fasta g) / num_threads g).
  set (g1 := set_chunk_size g c).
  assert (0 <= c) as Hc0 by (apply Z.div_pos; lia).
  rewrite (run_workers_scan_all _ g1 g1) by apply same_input_refl.
  rewrite workers_return by done. simpl.
  eexists. split; [done|]. split; [apply merge_all_frame|].
  rewrite merge_all_trial_count, merge_all_match_count.
  rewrite sum_local_trial, sum_local_count. unfold match_ptrs.
  rewrite spawn_length, spawn_ranges by done. simpl.
  rewrite Z2Nat.id by lia. done.
Qed.

Lemma lookup_map {A B} (f : A -> B) (l : list A) i :
  map f l !! i = option_map f (l !! i).
Proof. revert i. induction l as [|a l IH]; intros [|i]; simpl; auto. Qed.

Lemma elem_of_map {A B} (f : A -> B) (l : list A) b :
  b ∈ map f l -> exists a, a ∈ l /\ b = f a.
Proof.
  induction l as [|a l IH]; simpl; intros H.
  - by apply elem_of_nil in H.
  - apply elem_of_cons in H as [->|H].
    + exists a. split; [left|done].
    + destruct (IH H) as (a' & Ha & ->). exists a'. split; [by right|done].
Qed.

(** A probe at an occurrence reads the [pattern_length] bytes of it and
    reports equality. *)
Lemma probe_occurrence g o :
  defined g -> occurrence g o -> o < cur_length (fasta g) ->
  probe g o = Ret (true, seqZ o (Z.of_nat (pattern_length g))).
Proof.
  intros Hb (H0 & H1 & Heq) Ho.
  destruct (Hb o) as [[b rs] Hr]; [lia|].
  rewrite Hr. unfold probe in Hr.
  pose proof (CStringFacts.strncmp_equal _ _ _ _ _ _ (le_n _) H0 Hr) as Hm.
  rewrite bool_decide_eq_true_2 in Hm by done. subst b.
  by rewrite (CStringFacts.strncmp_equal_reads _ _ _ _ _ (le_n _) Hr).
Qed.

Lemma hits_scan_result g ptr o :
  o ∈ hits (scan_result g ptr) <->
  ptr <= o < ptr + chunk_size g /\ at_match (attempt_at g o) = true.
Proof.
  unfold hits, scan_result, attempts. simpl.
  rewrite list_elem_of_In, in_map_iff. split.
  - intros (a & <- & Ha). apply List.filter_In in Ha as [Ha Hm].
    apply in_map_iff in Ha as (o' & <- & Ho').
    apply list_elem_of_In, elem_of_seqZ in Ho'.
    rewrite attempt_at_offset. split; [lia|done].
  - intros [Ho Hm]. exists (attempt_at g o). split; [apply attempt_at_offset|].
    apply List.filter_In. split; [|done].
    apply in_map. apply list_elem_of_In, elem_of_seqZ. lia.
Qed.

Lemma NoDup_filter_attempts g os :
  List.NoDup os ->
  List.NoDup (map at_offset (List.filter at_match (map (attempt_at g) os))).
Proof.
  induction os as [|o os IH]; simpl; intros H; [constructor|].
  apply List.NoDup_cons_iff in H as [Hnin Hnd].
  destruct (at_match (attempt_at g o)); simpl; [|by apply IH].
  constructor; [|by apply IH].
  rewrite attempt_at_offset. intros Hin. apply Hnin.
  apply in_map_iff in Hin as (a & <- & Ha).
  apply List.filter_In in Ha as [Ha _].
  apply in_map_iff in Ha as (o' & <- & Ho'). by rewrite attempt_at_offset.
Qed.

(** *** Exactness of the match count *)

(** The bytes of the pattern in front of its terminator. *)
Lemma length_take_pattern g :
  length (take (pattern_length g) (pattern g)) = pattern_length g.
Proof. apply length_take_le, CStringFacts.strlen_le. Qed.

(** When the byte behind the data is a NUL, every call of strncmp returns
    and reports equality exactly at the occurrences inside the data. *)
Lemma probe_terminated g o :
  sequence (fasta g) !! Z.to_nat (cur_length (fasta g)) = Some CString.NUL ->
  0 <= o < cur_length (fasta g) ->
  exists rs,
    probe g o =
      Ret (Spec.occurs_at (take (Z.to_nat (cur_length (fasta g))) (sequence (fasta g)))
                          (take (pattern_length g) (pattern g)) (Z.to_nat o), rs).
Proof.
  intros HL Ho. unfold Spec.occurs_at.
  rewrite length_take_pattern.
  pose proof (lookup_lt_Some _ _ _ HL) as Hlen.
  rewrite length_take_le by lia.
  destruct (decide (o + Z.of_nat (pattern_length g) <= cur_length (fasta g))) as [Hin|Hout].
  - destruct (CStringFacts.strncmp_in_bounds (sequence (fasta g)) (pattern g)
                (pattern_length g) o) as [[b rs] Hr]; [lia..|].
    exists rs. unfold probe. rewrite Hr. f_equal. f_equal.
    rewrite (CStringFacts.strncmp_equal _ _ _ _ _ _ (le_n _) (proj1 Ho) Hr).
    apply bool_decide_ext.
    rewrite (take_drop_commute (take _ _)), take_take, Nat.min_l, <- take_drop_commute by lia.
    unfold pattern_length in *. split; [intros Heq; split; [lia|done]|by intros [_ ?]].
  - destruct (CStringFacts.strncmp_terminated (sequence (fasta g)) (Z.to_nat (cur_length (fasta g)))
                (pattern_length g) (pattern g) o) as (rs & Hr & _); [done|done|lia|lia|].
    exists rs. unfold probe. rewrite Hr. f_equal. f_equal.
    symmetry. apply bool_decide_eq_false_2. intros [? _]. lia.
Qed.

Lemma terminated_defined g :
  sequence (fasta g) !! Z.to_nat (cur_length (fasta g)) = Some CString.NUL -> defined g.
Proof. intros HL o Ho. destruct (probe_terminated g o HL Ho) as [rs ->]. eauto. Qed.

Lemma filter_map_length {A B} (p : A -> bool) (q : B -> bool) (f : B -> A) (l : list B) :
  (forall b, b ∈ l -> p (f b) = q b) ->
  length (List.filter p (map f l)) = length (List.filter q l).
Proof.
  induction l as [|b l IH]; intros H; simpl; [done|].
  rewrite (H b) by left. destruct (q b); simpl; rewrite IH; auto; intros; apply H; by right.
Qed.

(** With a NUL behind the data and a worker count that divides the length of
    the data, the aggregated match count is the count of the single-threaded
    scan of the data. *)
Lemma search_exact_when_terminated g :
  1 <= num_threads g -> 0 <= cur_length (fasta g) ->
  cur_length (fasta g) mod num_threads g = 0 ->
  sequence (fasta g) !! Z.to_nat (cur_length (fasta g)) = Some CString.NUL ->
  exists g',
    search g = Ret g' /\
    trial_count g' = trial_count g + cur_length (fasta g) /\
    match_count g' = match_count g
      + Spec.single_threaded_scan
          (take (Z.to_nat (cur_length (fasta g))) (sequence (fasta g)))
          (take (pattern_length g) (pattern g)).
Proof.
  intros Hw HL Hdiv Hnul.
  destruct (search_spec g Hw HL (terminated_defined g Hnul))
    as (g' & Hs & _ & Ht & Hm).
  assert (num_threads g * (cur_length (fasta g) / num_threads g) = cur_length (fasta g)) as Hwc.
  { pose proof (Z.div_mod (cur_length (fasta g)) (num_threads g)). lia. }
  rewrite Hwc in Ht, Hm. exists g'. split; [done|]. split; [done|].
  rewrite Hm. f_equal. unfold Spec.single_threaded_scan. f_equal.
  pose proof (lookup_lt_Some _ _ _ Hnul) as Hlen.
  rewrite length_take_le by lia.
  unfold attempts, seqZ. rewrite <- (filter_map_length at_match _
    (fun i => attempt_at g (Z.of_nat i + 0)) (seq 0 (Z.to_nat (cur_length (fasta g))))).
  - by rewrite map_map.
  - intros i Hi. apply elem_of_seq in Hi.
    destruct (probe_terminated g (Z.of_nat i + 0) Hnul) as [rs Hr]; [lia|].
    rewrite (attempt_at_Ret _ _ _ Hr). simpl. f_equal. lia.
Qed.

(** A worker count that divides the length of the data gives the totals of
    one worker over all of the data. *)
Lemma search_divisible_as_one_thread g :
  1 <= num_threads g -> 0 <= cur_length (fasta g) -> defined g ->
  cur_length (fasta g) mod num_threads g = 0 ->
  exists g' g1,
    search g = Ret g' /\ search (set_num_threads g 1) = Ret g1 /\
    match_count g' = match_count g1 /\ trial_count g' = trial_count g1.
Proof.
  intros Hw HL Hd Hdiv.
  destruct (search_spec g Hw HL Hd) as (g' & Hs & _ & Ht & Hm).
  destruct (search_spec (set_num_threads g 1)) as (g1 & Hs1 & _ & Ht1 & Hm1);
    [done..|].
  simpl in Ht1, Hm1.
  assert (num_threads g * (cur_length (fasta g) / num_threads g) = cur_length (fasta g)) as Hwc.
  { pose proof (Z.div_mod (cur_length (fasta g)) (num_threads g)). lia. }
  rewrite Hwc in Ht, Hm. rewrite Z.div_1_r, Z.mul_1_l in Ht1, Hm1.
  exists g', g1. split; [done|]. split; [done|]. split; [by rewrite Hm, Hm1|by rewrite Ht, Ht1].
Qed.

(** When the worker count divides the length of the data, the last worker
    tests the last offset of the data, where only one byte of data is left. *)
Lemma last_offset_tested g l :
  1 <= num_threads g -> 1 <= cur_length (fasta g) ->
  cur_length (fasta g) mod num_threads g = 0 ->
  let c := cur_length (fasta g) / num_threads g in
  scan (set_chunk_size g c) ((num_threads g - 1) * c) = Ret l ->
  cur_length (fasta g) - 1 ∈ tested l.
Proof.
  intros Hw HL Hdiv c Hscan.
  assert (num_threads g * c = cur_length (fasta g)) as Hwc.
  { pose proof (Z.div_mod (cur_length (fasta g)) (num_threads g)). lia. }
  assert (0 <= c) as Hc0 by (apply Z.div_pos; lia).
  apply scan_tested in Hscan; [|done]. rewrite Hscan. simpl.
  apply elem_of_seqZ. nia.
Qed.
End ScanFacts.

(** ** The partition (C5) *)

(** C5: with at least one worker, [main] computes
    [chunk_size = cur_length / num_threads] by integer division and creates
    [num_threads] workers; worker [i] is handed offset [i * chunk_size] and
    the start offsets it tests are exactly
    [i * chunk_size .. (i+1) * chunk_size - 1].  The ranges are equal in
    size, and each begins where the one before it ends, so they are disjoint
    and together are [0 .. num_threads * chunk_size - 1]; the last
    [cur_length mod num_threads] offsets of the data are tested by no worker.
    When every call of strncmp returns, every worker returns. *)
Theorem partition_equal_contiguous_ranges (g : globals) :
  1 <= num_threads g -> 0 <= cur_length (fasta g) ->
  let w := num_threads g in
  let len := cur_length (fasta g) in
  let c := len / w in
  exists g1,
    Scan.partition g = Ret g1 /\ chunk_size g1 = c /\ fasta g1 = fasta g /\
    length (Scan.match_ptrs g1) = Z.to_nat w /\
    (forall i, (i < Z.to_nat w)%nat ->
       Scan.match_ptrs g1 !! i = Some (Z.of_nat i * c)) /\
    (forall i l, (i < Z.to_nat w)%nat -> Scan.scan g1 (Z.of_nat i * c) = Ret l ->
       Scan.tested l = seqZ (Z.of_nat i * c) c /\
       forall o, o ∈ Scan.tested l ->
         Z.of_nat i * c <= o < (Z.of_nat i + 1) * c /\ o < len - len mod w) /\
    w * c = len - len mod w /\
    (Scan.defined g ->
       exists ls, Scan.scan_all g1 (Scan.match_ptrs g1) = Ret ls /\
                  length ls = Z.to_nat w /\
                  concat (map Scan.tested ls) = seqZ 0 (w * c)).
Proof.
  intros Hw HL w len c.
  assert (0 <= c) as Hc0 by (apply Z.div_pos; lia).
  assert (w * c = len - len mod w) as Hwc by (pose proof (Z.div_mod len w); lia).
  exists (set_chunk_size g c).
  split; [by apply ScanFacts.partition_Ret|]. split; [done|]. split; [done|].
  unfold Scan.match_ptrs. rewrite ScanFacts.spawn_length. simpl.
  split; [done|]. split; [|split; [|split; [done|]]].
  - intros i Hi. rewrite ScanFacts.spawn_lookup by done. simpl. f_equal; lia.
  - intros i l Hi Hscan. apply ScanFacts.scan_tested in Hscan; [|done]. simpl in Hscan.
    split; [done|]. intros o Ho. rewrite Hscan in Ho. apply elem_of_seqZ in Ho. nia.
  - intros Hd. exists (map (Scan.scan_result (set_chunk_size g c))
                           (Scan.match_ptrs (set_chunk_size g c))).
    split; [by apply ScanFacts.workers_return|].
    unfold Scan.match_ptrs. rewrite length_map, ScanFacts.spawn_length. simpl.
    split; [done|].
    rewrite ScanFacts.concat_tested, ScanFacts.spawn_ranges by done. simpl.
    by rewrite Z2Nat.id by lia.
Qed.

(** ** Occurrences across a chunk boundary (C4) *)

(** C4: in a run in which every call of strncmp returns, an occurrence of
    the pattern in the data whose start offset [o] lies in the range of
    worker [i] is counted once in the aggregated match count, by worker [i]
    and by no other worker, wherever its last byte lies: in particular when
    its bytes extend past the end of that range into the range of worker
    [i + 1]. *)
Theorem boundary_occurrence_counted_once (g : globals) (o i : Z) :
  1 <= num_threads g -> 0 <= cur_length (fasta g) -> Scan.defined g ->
  let c := cur_length (fasta g) / num_threads g in
  Scan.occurrence g o ->
  0 <= i < num_threads g -> i * c <= o < (i + 1) * c ->
  exists g1 ls g',
    Scan.partition g = Ret g1 /\
    Scan.scan_all g1 (Scan.match_ptrs g1) = Ret ls /\
    Scan.search g = Ret g' /\
    match_count g' = match_count g + Z.of_nat (length (concat (map Scan.hits ls))) /\
    count_occ Z.eq_dec (concat (map Scan.hits ls)) o = 1%nat /\
    (forall j l, ls !! j = Some l -> o ∈ Scan.hits l <-> j = Z.to_nat i).
Proof.
  intros Hw HL Hd c Hocc Hi Ho.
  assert (0 <= c) as Hc0 by (apply Z.div_pos; lia).
  assert (num_threads g * c <= cur_length (fasta g)) as Hwc by (apply Z.mul_div_le; lia).
  set (g1 := set_chunk_size g c).
  assert (Scan.at_match (Scan.attempt_at g1 o) = true) as Hm.
  { rewrite (ScanFacts.attempt_at_Ret g1 o (true, seqZ o (Z.of_nat (Scan.pattern_length g1)))); [done|].
    apply ScanFacts.probe_occurrence; [done..|]. simpl. nia. }
  exists g1, (map (Scan.scan_result g1) (Scan.match_ptrs g1)).
  destruct (ScanFacts.search_spec g Hw HL Hd) as (g' & Hs & _ & _ & Hmc).
  exists g'. split; [by apply ScanFacts.partition_Ret|].
  split; [by apply ScanFacts.workers_return|]. split; [done|].
  rewrite ScanFacts.concat_hits. unfold Scan.match_ptrs.
  rewrite ScanFacts.spawn_ranges by done. simpl. rewrite Z2Nat.id by lia.
  split; [by rewrite length_map|]. split.
  - apply NoDup_count_occ'.
    + apply ScanFacts.NoDup_filter_attempts. apply NoDup_ListNoDup, NoDup_seqZ.
    + apply in_map_iff. exists (Scan.attempt_at g1 o).
      split; [apply ScanFacts.attempt_at_offset|].
      apply List.filter_In. split; [|done].
      apply in_map, list_elem_of_In, elem_of_seqZ. nia.
  - intros j l Hl. rewrite ScanFacts.lookup_map in Hl.
    destruct (Scan.spawn _ _ _ !! j) as [ptr|] eqn:Hptr; [|done].
    injection Hl as <-.
    assert (j < Z.to_nat (num_threads g))%nat as Hj.
    { apply lookup_lt_Some in Hptr. by rewrite ScanFacts.spawn_length in Hptr. }
    rewrite ScanFacts.spawn_lookup in Hptr by done. injection Hptr as <-.
    rewrite ScanFacts.hits_scan_result. simpl. split.
    + intros [Hr _]. nia.
    + intros ->. split; [|done]. rewrite Z2Nat.id by lia. lia.
Qed.

(** ** The threads under any schedule *)

Module ThreadsFacts.
Import Threads.

Lemma sumZ_insert {A} (f : A -> Z) (l : list A) i a b :
  l !! i = Some a -> sumZ (map f (<[i := b]> l)) = sumZ (map f l) - f a + f b.
Proof.
  revert i. induction l as [|x l IH]; intros [|i]; simpl; try done.
  - intros [= ->]. lia.
  - intros H. rewrite (IH _ H). lia.
Qed.

Lemma map_insert_same {A B} (f : A -> B) (l : list A) i a b :
  l !! i = Some a -> f b = f a -> map f (<[i := b]> l) = map f l.
Proof.
  revert i. induction l as [|x l IH]; intros [|i]; simpl; try done.
  - intros [= ->] ->. done.
  - intros H Hf. by rewrite (IH _ H Hf).
Qed.

(** A step leaves everything but the two counters alone. *)
Lemma thread_step_frame i m m' :
  thread_step i m = Some m' -> same_input (shared m) (shared m').
Proof.
  unfold thread_step. intros H.
  destruct (threads m !! i) as [t|]; [|done].
  destruct (pc t); try (injection H as <-; by unfold same_input); try done.
  - destruct (decide _).
    + destruct (Scan.loop_body _ _); [|done]. injection H as <-. by unfold same_input.
    + injection H as <-. by unfold same_input.
  - destruct (mutex m); [done|]. injection H as <-. by unfold same_input.
Qed.

Lemma steps_frame m m' : rtc step m m' -> same_input (shared m) (shared m').
Proof.
  induction 1 as [m|m1 m2 m3 [i Hi] _ IH]; [apply ScanFacts.same_input_refl|].
  eapply ScanFacts.same_input_trans; [|apply IH]. by eapply thread_step_frame.
Qed.

Lemma lookup_insert_cases {A} (ts : list A) i j t t' tj :
  ts !! i = Some t -> <[i := t']> ts !! j = Some tj ->
  (j = i /\ tj = t') \/ (j <> i /\ ts !! j = Some tj).
Proof.
  intros Hi Hj. destruct (decide (j = i)) as [->|Hne].
  - left. rewrite list_lookup_insert_eq in Hj by (by eapply lookup_lt_Some).
    split; congruence.
  - right. by rewrite list_lookup_insert_ne in Hj.
Qed.

Lemma loop_body_cur g l l' :
  Scan.loop_body g l = Ret l' -> Scan.cur_location l' = Scan.cur_location l + 1.
Proof.
  unfold Scan.loop_body. destruct (Scan.probe g _); simpl; [|done]. by intros [= <-].
Qed.

Lemma loop_body_frame g g' l :
  same_input g g' -> Scan.loop_body g' l = Scan.loop_body g l.
Proof. intros H. unfold Scan.loop_body. by rewrite (ScanFacts.probe_frame _ _ _ H). Qed.

Lemma boot_invariant g : invariant g (boot g).
Proof.
  unfold invariant, boot. simpl.
  split; [apply ScanFacts.same_input_refl|].
  split; [|split; [done|]].
  { intros i t Ht. rewrite ScanFacts.lookup_map in Ht.
    destruct (_ !! i); [|done]. by injection Ht as <-. }
  assert (forall (f : thread -> Z) ptrs,
    (forall ptr, f {| arg := ptr; pc := Scanning; locals := Scan.enter ptr |} = 0) ->
    sumZ (map f (map (fun ptr => {| arg := ptr; pc := Scanning;
                                     locals := Scan.enter ptr |}) ptrs)) = 0) as Hsum.
  { intros f ptrs Hf. induction ptrs as [|p ptrs IH]; simpl; [done|]. rewrite Hf, IH. done. }
  rewrite !Hsum by done.
  split; [lia|]. split; [lia|]. split.
  - intros i t Ht. rewrite ScanFacts.lookup_map in Ht.
    destruct (_ !! i) as [ptr|]; [|done]. injection Ht as <-.
    split; [done|]. unfold on_track. simpl.
    exists (Z.to_nat (chunk_size g)).
    split; [done|]. split; [unfold Scan.last_location; lia|done].
  - rewrite map_map. simpl. apply map_id.
Qed.

(** Two threads inside the critical section are one thread. *)
Lemma critical_unique g0 m i j ti tj :
  invariant g0 m ->
  threads m !! i = Some ti -> threads m !! j = Some tj ->
  in_critical (pc ti) = true -> in_critical (pc tj) = true -> i = j.
Proof.
  intros (_ & Hcrit & _) Hi Hj Hci Hcj.
  pose proof (Hcrit _ _ Hi Hci). pose proof (Hcrit _ _ Hj Hcj). congruence.
Qed.

Lemma loop_S fuel g last l :
  Scan.loop (S fuel) g last l =
    if decide (Scan.cur_location l <= last)
    then do l' <- Scan.loop_body g l; Scan.loop fuel g last l'
    else Ret l.
Proof. done. Qed.

Section Step.

Variables (g0 : globals) (m : machine) (i : nat) (t : thread).
Hypothesis Hinv : invariant g0 m.
Hypothesis Hti : threads m !! i = Some t.

(** The parts of the invariant that speak of one thread at a time, when
    thread [i] becomes [t'] and the counters become those of [g']. *)
Lemma others_kept g' t' j tj :
  (in_critical (pc t) = false -> match_count g' = match_count (shared m) /\
                                  trial_count g' = trial_count (shared m)) ->
  fresh g' t' -> on_track g0 t' ->
  <[i := t']> (threads m) !! j = Some tj ->
  fresh g' tj /\ on_track g0 tj.
Proof.
  intros Hg Hf Ht Hj.
  destruct (lookup_insert_cases _ _ _ _ _ _ Hti Hj) as [[-> ->]|[Hne Hj']]; [done|].
  destruct Hinv as (_ & _ & _ & _ & _ & Hth & _).
  destruct (Hth _ _ Hj') as [Hfj Htj]. split; [|done].
  destruct (in_critical (pc t)) eqn:Hc.
  - unfold fresh in *.
    destruct (pc tj) eqn:Hpcj; try done; exfalso; apply Hne;
      eapply (critical_unique g0 m j i tj t); try done; by rewrite Hpcj.
  - destruct Hg as [Hm Htr]; [done|]. unfold fresh in *. rewrite Hm, Htr. done.
Qed.

Lemma critical_kept mu' t' j tj :
  (in_critical (pc t') = true -> mu' = Some i) ->
  (in_critical (pc t) = false -> mu' = mutex m \/ mutex m = None) ->
  <[i := t']> (threads m) !! j = Some tj ->
  in_critical (pc tj) = true -> mu' = Some j.
Proof.
  intros Hnew Hold Hj Hc.
  destruct (lookup_insert_cases _ _ _ _ _ _ Hti Hj) as [[-> ->]|[Hne Hj']]; [auto|].
  destruct (in_critical (pc t)) eqn:Hct.
  - exfalso. apply Hne. by eapply (critical_unique g0 m j i tj t).
  - destruct Hinv as (_ & Hcrit & _). pose proof (Hcrit _ _ Hj' Hc).
    destruct Hold as [->|Hnone]; [done..|congruence].
Qed.

Lemma holder_kept mu' t' j :
  (mu' = Some i -> in_critical (pc t') = true) ->
  (mu' = mutex m \/ mu' = Some i \/ mu' = None) ->
  mu' = Some j ->
  exists tj, <[i := t']> (threads m) !! j = Some tj /\ in_critical (pc tj) = true.
Proof.
  intros Hnew Hmu Hj. destruct (decide (j = i)) as [->|Hne].
  - exists t'. split; [|auto].
    apply list_lookup_insert_eq. by eapply lookup_lt_Some.
  - destruct Hmu as [Hmu|[Hmu|Hmu]]; [|congruence..].
    destruct Hinv as (_ & _ & Hheld & _).
    destruct (Hheld j) as (tj & Htj & Hc); [congruence|].
    exists tj. by rewrite list_lookup_insert_ne.
Qed.

End Step.

Lemma step_invariant g0 m m' i :
  invariant g0 m -> thread_step i m = Some m' -> invariant g0 m'.
Proof.
  intros Hinv Hstep.
  pose proof Hinv as (Hsame & Hcrit & Hheld & Hmc & Htc & Hth & Hargs).
  pose proof (ScanFacts.same_input_trans _ _ _ Hsame (thread_step_frame _ _ _ Hstep)) as Hsame'.
  unfold thread_step in Hstep.
  destruct (threads m !! i) as [t|] eqn:Hti; [|done].
  destruct (Hth _ _ Hti) as [Hfresh Htrack].
  assert (forall p l, map arg (<[i := {| arg := arg t; pc := p; locals := l |}]> (threads m))
                      = Scan.match_ptrs g0) as Hargs'.
  { intros p l. by rewrite (map_insert_same arg _ _ t). }
  assert (in_critical (pc t) = true -> mutex m = Some i) as Hmine by apply (Hcrit _ _ Hti).
  assert (mutex m = Some i -> in_critical (pc t) = true) as Hmine'.
  { intros Hm. apply Hheld in Hm as (t0 & Ht0 & Hc). congruence. }
  assert (Scan.last_location (shared m) (arg t) = Scan.last_location g0 (arg t)) as Hlast.
  { unfold Scan.last_location. destruct Hsame as (_&_&_&_&->). done. }
  unfold invariant. split; [done|]. clear Hsame'.
  destruct (pc t) eqn:Hpc; unfold fresh, on_track in Hfresh, Htrack; rewrite Hpc in *;
    try specialize (Hmine eq_refl); try done;
    [ destruct Htrack as (k & Harg & Hk & Hloop); rewrite Hlast in Hstep;
      destruct (decide (Scan.cur_location (locals t) <= Scan.last_location g0 (arg t)))
        as [Hle|Hgt];
      [ rewrite (loop_body_frame _ _ _ Hsame) in Hstep;
        destruct (Scan.loop_body g0 (locals t)) as [l'|] eqn:Hbody; [|done] | ]
    | destruct (mutex m) as [h|] eqn:Hmu; [done|] | .. ];
    injection Hstep as <-; cbn [shared mutex threads move];
    (split;
      [ intros j tj Hj Hc; refine (critical_kept g0 m i t Hinv Hti _ _ j tj _ _ Hj Hc);
        rewrite ?Hpc; simpl; auto
      | split;
        [ intros j Hj; refine (holder_kept g0 m i t Hinv Hti _ _ j _ _ Hj);
          rewrite ?Hpc; simpl; auto
        | split;
          [ rewrite (sumZ_insert _ _ _ t) by done; unfold gave_match at 2 3; simpl;
            rewrite Hpc; try lia
          | split;
            [ rewrite (sumZ_insert _ _ _ t) by done; unfold gave_trial at 2 3; simpl;
              rewrite Hpc; try lia
            | split;
              [ intros j tj Hj; refine (others_kept g0 m i t Hinv Hti _ _ j tj _ _ _ Hj);
                rewrite ?Hpc; cbn [in_critical fresh on_track pc arg locals at_pc
                    match_count trial_count set_match_count set_trial_count];
                auto
              | apply Hargs' ] ] ] ] ]).
  all: try done.
  - destruct k as [|k]; [lia|]. exists k.
    rewrite (loop_body_cur _ _ _ Hbody). split; [lia|]. split; [lia|].
    rewrite <- Hloop, (loop_S (S k)), decide_True, Hbody by done. done.
  - by rewrite <- Hloop, loop_S, decide_False by done.
Qed.

(** The invariant holds in every state the threads can reach. *)
Lemma reachable_invariant g m : rtc step (boot g) m -> invariant g m.
Proof.
  revert m. apply (rtc_ind_r (R := step) (invariant g)); [apply boot_invariant|].
  intros m1 m2 _ [i Hi] Hinv. by eapply step_invariant.
Qed.

Lemma joined_sums (f : thread -> Z) (h : Scan.local_t -> Z) ts :
  (forall t, pc t = Returned -> f t = h (locals t)) ->
  Forall (fun t => pc t = Returned) ts ->
  sumZ (map f ts) = sumZ (map h (map locals ts)).
Proof.
  intros Hf. induction 1 as [|t ts Ht _ IH]; simpl; [done|]. by rewrite Hf, IH.
Qed.


Lemma run_steps schedule : forall m m',
  run schedule m = Some m' -> rtc step m m'.
Proof.
  induction schedule as [|i rest IH]; intros m m'; simpl.
  - intros [= <-]. apply rtc_refl.
  - destruct (thread_step i m) as [m1|] eqn:E; [|done]. intros H.
    eapply rtc_l; [by exists i|by apply IH].
Qed.

(** The locals of joined threads are what [Scan.scan] returns. *)
Lemma joined_locals g ts :
  Forall (fun t => pc t = Returned) ts ->
  (forall i t, ts !! i = Some t -> on_track g t) ->
  Scan.scan_all g (map arg ts) = Ret (map locals ts).
Proof.
  induction 1 as [|t ts Ht _ IH]; intros Hall; simpl; [done|].
  pose proof (Hall O t eq_refl) as H0. unfold on_track in H0. rewrite Ht in H0.
  rewrite H0. simpl. rewrite IH; [done|]. intros i t' Hi. by apply (Hall (S i)).
Qed.

Lemma joined_match m :
  joined m ->
  sumZ (map gave_match (threads m)) = sumZ (map Scan.local_count (map locals (threads m))).
Proof. apply joined_sums. intros t Ht. unfold gave_match. by rewrite Ht. Qed.

Lemma joined_trial m :
  joined m ->
  sumZ (map gave_trial (threads m)) = sumZ (map Scan.local_trial (map locals (threads m))).
Proof. apply joined_sums. intros t Ht. unfold gave_trial. by rewrite Ht. Qed.

Lemma globals_eq g g' :
  same_input g g' -> match_count g' = match_count g -> trial_count g' = trial_count g ->
  g' = g.
Proof.
  destruct g, g'. unfold same_input. simpl. intros (?&?&?&?&?) ? ?. by subst.
Qed.

(** However the threads were scheduled, once all are joined the globals
    are those of the run in which the workers follow one another. *)
Lemma joined_run_workers g m :
  rtc step (boot g) m -> joined m ->
  Scan.scan_all g (Scan.match_ptrs g) = Ret (map locals (threads m)) /\
  Scan.run_workers (Scan.match_ptrs g) g = Ret (shared m).
Proof.
  intros Hreach Hj. apply reachable_invariant in Hreach as Hinv.
  destruct Hinv as (Hsame & _ & _ & Hmc & Htc & Hth & Hargs).
  assert (Scan.scan_all g (Scan.match_ptrs g) = Ret (map locals (threads m))) as Hall.
  { rewrite <- Hargs. apply joined_locals; [done|]. intros i t Ht. by apply (Hth i). }
  split; [done|].
  rewrite (ScanFacts.run_workers_scan_all _ g g) by apply ScanFacts.same_input_refl.
  rewrite Hall. simpl. f_equal. symmetry. apply globals_eq.
  - eapply ScanFacts.same_input_trans; [|apply Hsame].
    pose proof (ScanFacts.merge_all_frame (map locals (threads m)) g) as (?&?&?&?&?).
    unfold same_input. by repeat split.
  - rewrite ScanFacts.merge_all_match_count, Hmc. f_equal.
    by apply joined_match.
  - rewrite ScanFacts.merge_all_trial_count, Htc. f_equal.
    by apply joined_trial.
Qed.

(** *** Progress and termination *)

Lemma sum_list_insert {A} (f : A -> nat) (l : list A) i a b :
  l !! i = Some a ->
  (sum_list (map f (<[i := b]> l)) + f a = sum_list (map f l) + f b)%nat.
Proof.
  revert i. induction l as [|x l IH]; intros [|i]; simpl; try done.
  - intros [= ->]. lia.
  - intros H. pose proof (IH _ H). lia.
Qed.

(** Every step uses up one unit of the work that is left. *)
Lemma step_work g0 m m' i :
  invariant g0 m -> thread_step i m = Some m' ->
  S (work_left g0 m') = work_left g0 m.
Proof.
  intros (Hsame & _) Hstep. unfold thread_step in Hstep. unfold work_left.
  destruct (threads m !! i) as [t|] eqn:Hti; [|done].
  assert (Scan.last_location (shared m) (arg t) = Scan.last_location g0 (arg t)) as Hlast.
  { unfold Scan.last_location. destruct Hsame as (_&_&_&_&->). done. }
  destruct (pc t) eqn:Hpc; try done;
    [ rewrite Hlast in Hstep;
      destruct (decide (Scan.cur_location (locals t) <= Scan.last_location g0 (arg t)))
        as [Hle|Hgt];
      [ destruct (Scan.loop_body (shared m) (locals t)) as [l'|] eqn:Hbody; [|done];
        apply loop_body_cur in Hbody | ]
    | destruct (mutex m); [done|] | .. ];
    injection Hstep as <-; cbn [threads move];
    match goal with
    | |- context [ <[i := ?t']> _ ] =>
        pose proof (sum_list_insert (steps_left g0) _ _ _ t' Hti) as Hsum
    end;
    unfold steps_left at 2 4 in Hsum; cbn [pc arg locals at_pc] in Hsum;
    rewrite Hpc in Hsum; lia.
Qed.

Lemma run_work g0 schedule : forall m m',
  invariant g0 m -> run schedule m = Some m' ->
  (length schedule + work_left g0 m' = work_left g0 m)%nat.
Proof.
  induction schedule as [|i rest IH]; intros m m' Hinv; simpl.
  - by intros [= <-].
  - destruct (thread_step i m) as [m1|] eqn:E; [|done]. intros H.
    pose proof (step_work _ _ _ _ Hinv E).
    pose proof (IH _ _ (step_invariant _ _ _ _ Hinv E) H). lia.
Qed.

(** While a thread has not returned, some thread can take a step: the
    holder of the mutex if there is one, any unfinished thread otherwise. *)
Lemma progress g0 m :
  invariant g0 m -> Scan.defined g0 ->
  1 <= num_threads g0 -> 0 <= cur_length (fasta g0) ->
  chunk_size g0 = cur_length (fasta g0) / num_threads g0 ->
  ~ joined m -> exists i m', thread_step i m = Some m'.
Proof.
  intros Hinv Hdef Hw HL Hc Hnj.
  pose proof Hinv as (Hsame & Hcrit & Hheld & _ & _ & Hth & Hargs).
  destruct (mutex m) as [h|] eqn:Hmu.
  - destruct (Hheld h eq_refl) as (t & Ht & Hcr). exists h.
    unfold thread_step. rewrite Ht. destruct (pc t); try done; eauto.
  - apply not_Forall_Exists in Hnj; [|intros t; apply _].
    apply Exists_exists in Hnj as (t & Hin & Hpc).
    apply list_elem_of_lookup in Hin as [i Ht]. exists i.
    unfold thread_step. rewrite Ht, Hmu.
    destruct (pc t) eqn:Hpct; try done; eauto;
      try (pose proof (Hcrit i t Ht) as Hc'; rewrite Hpct in Hc'; by specialize (Hc' eq_refl)).
    destruct (decide _) as [Hle|]; [|eauto].
    destruct (Hth i t Ht) as [_ Htr]. unfold on_track in Htr. rewrite Hpct in Htr.
    destruct Htr as (k & Harg & _).
    assert (arg t ∈ Scan.match_ptrs g0) as Hptr.
    { rewrite <- Hargs. apply list_elem_of_lookup. exists i.
      by rewrite ScanFacts.lookup_map, Ht. }
    apply ScanFacts.spawn_elem in Hptr as (j & Hj & Hargj).
    assert (Scan.last_location (shared m) (arg t) = Scan.last_location g0 (arg t)) as Hlast.
    { unfold Scan.last_location. destruct Hsame as (_&_&_&_&->). done. }
    rewrite Hlast in Hle. unfold Scan.last_location in Hle.
    assert (0 <= chunk_size g0) by (rewrite Hc; apply Z.div_pos; lia).
    assert (num_threads g0 * chunk_size g0 <= cur_length (fasta g0))
      by (rewrite Hc; apply Z.mul_div_le; lia).
    destruct (Hdef (Scan.cur_location (locals t))) as [r Hr]; [nia|].
    rewrite (loop_body_frame _ _ _ Hsame), (ScanFacts.loop_body_Ret _ _ _ Hr). eauto.
Qed.

(** From every reachable state the threads can run on until all are
    joined. *)
Lemma completes g0 (n : nat) : forall m,
  invariant g0 m -> Scan.defined g0 ->
  1 <= num_threads g0 -> 0 <= cur_length (fasta g0) ->
  chunk_size g0 = cur_length (fasta g0) / num_threads g0 ->
  work_left g0 m = n ->
  exists m', rtc step m m' /\ joined m'.
Proof.
  induction n as [|n IH]; intros m Hinv Hdef Hw HL Hc Hn;
    (destruct (decide (joined m)) as [Hj|Hnj]; [exists m; split; [apply rtc_refl|done]|]);
    destruct (progress _ _ Hinv Hdef Hw HL Hc Hnj) as (i & m1 & Hstep);
    pose proof (step_work _ _ _ _ Hinv Hstep) as Hwork.
  - lia.
  - destruct (IH m1) as (m' & Hrun & Hj); [by eapply step_invariant|done..|lia|].
    exists m'. split; [|done]. eapply rtc_l; [by exists i|done].
Qed.

End ThreadsFacts.

(** ** The aggregated totals (C6) *)

(** What [main] hands to the threads: the counters are zero, there is at
    least one thread, and [chunk_size] is the quotient. *)
Lemma loaded_and_partitioned junk cl g g1 :
  load_files junk cl = Ret g -> Scan.partition g = Ret g1 ->
  match_count g1 = 0 /\ trial_count g1 = 0 /\
  1 <= num_threads g1 /\ 0 <= cur_length (fasta g1) /\
  chunk_size g1 = cur_length (fasta g1) / num_threads g1.
Proof.
  intros Hload Hpart. unfold load_files in Hload.
  destruct (opt_pattern cl); [|done]. destruct (decide _); [done|].
  destruct (read_files _ _) as [f|] eqn:Hread; [|done]. injection Hload as <-.
  apply read_files_grows in Hread. simpl in Hread.
  unfold Scan.partition in Hpart. simpl in Hpart.
  repeat destruct (decide _); try done. injection Hpart as <-. simpl.
  rewrite Z.quot_div_nonneg by lia. repeat split; lia.
Qed.


(** C6: the two global counters are zero when the threads are created.  The
    threads can always run on until each has returned and is joined, and
    under every schedule: at most one thread is between lock and unlock,
    which is where both additions happen, and it holds the mutex; once all
    threads are joined, [match_count] is the sum of the threads'
    [local_count] and [trial_count] the sum of their [local_trial], these
    locals being what each worker's scan computes. *)
Theorem totals_are_sums_of_locals (junk : nat -> ascii) (cl : command_line)
    (g g1 : globals) :
  load_files junk cl = Ret g -> Scan.partition g = Ret g1 -> Scan.defined g1 ->
  (match_count g1 = 0 /\ trial_count g1 = 0) /\
  (exists m, rtc Threads.step (Threads.boot g1) m /\ Threads.joined m) /\
  (forall m, rtc Threads.step (Threads.boot g1) m ->
     (forall i j ti tj,
        Threads.threads m !! i = Some ti -> Threads.threads m !! j = Some tj ->
        Threads.in_critical (Threads.pc ti) = true ->
        Threads.in_critical (Threads.pc tj) = true ->
        i = j /\ Threads.mutex m = Some i) /\
     (Threads.joined m ->
        Scan.scan_all g1 (Scan.match_ptrs g1)
          = Ret (map Threads.locals (Threads.threads m)) /\
        match_count (Threads.shared m)
          = sumZ (map Scan.local_count (map Threads.locals (Threads.threads m))) /\
        trial_count (Threads.shared m)
          = sumZ (map Scan.local_trial (map Threads.locals (Threads.threads m))))).
Proof.
  intros Hload Hpart Hdef.
  destruct (loaded_and_partitioned _ _ _ _ Hload Hpart) as (Hm0 & Ht0 & Hw & HL & Hc).
  split; [done|]. split.
  - apply (ThreadsFacts.completes g1 (Threads.work_left g1 (Threads.boot g1)));
      [apply ThreadsFacts.boot_invariant|done..].
  - intros m Hreach.
    pose proof (ThreadsFacts.reachable_invariant _ _ Hreach) as Hinv. split.
    + intros i j ti tj Hi Hj Hci Hcj.
      split; [by eapply ThreadsFacts.critical_unique|].
      destruct Hinv as (_ & Hcrit & _). by eapply Hcrit.
    + intros Hj. destruct (ThreadsFacts.joined_run_workers _ _ Hreach Hj) as [Hall _].
      split; [done|]. destruct Hinv as (_ & _ & _ & Hmc & Htc & _).
      rewrite Hmc, Htc, Hm0, Ht0, !Z.add_0_l.
      split; [by apply ThreadsFacts.joined_match|by apply ThreadsFacts.joined_trial].
Qed.

(** ** What a worker leaves alone (C10) *)

(** C10: whatever steps the workers take, the sequence buffer (its bytes,
    [cur_length] and [max_length]), the pattern, [chunk_size], [num_threads]
    and [verbose] keep the values they had before; only [match_count] and
    [trial_count] can differ. *)
Theorem workers_change_only_the_counters (m m' : Threads.machine) :
  rtc Threads.step m m' ->
  fasta (Threads.shared m') = fasta (Threads.shared m) /\
  pattern (Threads.shared m') = pattern (Threads.shared m) /\
  chunk_size (Threads.shared m') = chunk_size (Threads.shared m) /\
  num_threads (Threads.shared m') = num_threads (Threads.shared m) /\
  verbose (Threads.shared m') = verbose (Threads.shared m).
Proof.
  intros H. apply ThreadsFacts.steps_frame in H as (?&?&?&?&?). done.
Qed.

(** ** The program on concrete inputs *)

(** C1: the aggregated match count is not always the count of a
    single-threaded scan of the data.  [psg -b 2048 -p ACG -n 1] over the
    three bases AAC, in a block whose byte 3 (never written by ingestion)
    holds a ['G']: the worker counts a match at offset 1, whose last byte lies
    behind the data; the data holds no occurrence. *)
Theorem stale_byte_completes_a_match :
  exists g',
    main Examples.stale (Examples.psg "ACG" 1 "AAC") = Ret g' /\
    cur_length (fasta g') mod num_threads g' = 0 /\
    pattern g' <> [] /\
    match_count g' = 1 /\
    Spec.single_threaded_scan (Examples.data_of g') (pattern g') = 0.
Proof.
  eexists. split; [vm_compute; reflexivity|].
  split; [by vm_compute|]. split; [done|]. split; by vm_compute.
Qed.

(** C2: the worker reads behind the end of the data.
    [psg -b 2048 -p ACGT -n 1] over the eleven bases AACGTACGTAA: the last
    start offset the worker tests is 10, where [10 + 4 > 11], and there
    strncmp reads the bytes at offsets 10 and 11. *)
Theorem last_offsets_read_behind_the_data :
  exists g g1 l,
    load_files Examples.zeroed (Examples.psg "ACGT" 1 "AACGTACGTAA") = Ret g /\
    Scan.partition g = Ret g1 /\ Scan.match_ptrs g1 = [0] /\
    Scan.scan g1 0 = Ret l /\
    cur_length (fasta g1) = 11 /\ Scan.pattern_length g1 = 4%nat /\
    last (Scan.log l) = Some {| Scan.at_offset := 10; Scan.at_reads := [10; 11];
                                Scan.at_match := false |}.
Proof.
  eexists. eexists. eexists.
  split; [vm_compute; reflexivity|]. split; [vm_compute; reflexivity|].
  split; [by vm_compute|]. split; [vm_compute; reflexivity|].
  split; [by vm_compute|]. split; by vm_compute.
Qed.

(** C3: [psg -b 2048 -p ACGT -n 1] over AACGTACGTAA reports 11 attempts, one
    for each byte of the data, where [length - pattern_length + 1] is 8. *)
Theorem eleven_attempts_not_eight :
  exists g',
    main Examples.zeroed (Examples.psg "ACGT" 1 "AACGTACGTAA") = Ret g' /\
    cur_length (fasta g') mod num_threads g' = 0 /\
    match_count g' = 2 /\ trial_count g' = 11 /\
    Spec.single_threaded_attempts (Examples.data_of g') (pattern g') = 8.
Proof.
  eexists. split; [vm_compute; reflexivity|].
  split; [by vm_compute|]. split; [by vm_compute|]. split; by vm_compute.
Qed.

(** C8: a pattern longer than the data is still tried at every offset.
    [psg -b 2048 -p ACG -n 1] over the two bases AC reports 2 attempts, and
    at offset 0 strncmp reads offset 2, behind the data. *)
Theorem long_pattern_is_tried :
  exists g g1 l g',
    load_files Examples.zeroed (Examples.psg "ACG" 1 "AC") = Ret g /\
    Scan.partition g = Ret g1 /\ Scan.scan g1 0 = Ret l /\
    main Examples.zeroed (Examples.psg "ACG" 1 "AC") = Ret g' /\
    cur_length (fasta g') = 2 /\ Scan.pattern_length g' = 3%nat /\
    trial_count g' = 2 /\ match_count g' = 0 /\
    Scan.reads l = [0; 1; 2; 1].
Proof.
  eexists. eexists. eexists. eexists.
  split; [vm_compute; reflexivity|]. split; [vm_compute; reflexivity|].
  split; [vm_compute; reflexivity|]. split; [vm_compute; reflexivity|].
  repeat split; by vm_compute.
Qed.

(** A pattern longer than the room behind the data can take strncmp out of
    the heap block: 1030 times ['A'] against the four bases AAAA in a block of
    1028 bytes that happens to hold ['A'] everywhere.  The first call of
    strncmp runs through the block and reads at offset 1028, outside it. *)
Lemma long_pattern_can_leave_the_block :
  main (fun _ => "A"%char)
       {| opt_verbose := false; opt_max_length := 1028;
          opt_pattern := Some (repeat "A"%char 1030); opt_num_threads := 1;
          files := [Examples.file "AAAA"] |}
  = Stop (OutOfBounds 1028).
Proof. by vm_compute. Qed.

(** C9: no worker count is rejected.  With [-n 0] the files are loaded and
    the chunk size is then computed by a division by zero; with [-n 12] over
    eleven bases the program reports zero attempts and zero matches. *)
Theorem zero_workers_divide_by_zero :
  main Examples.zeroed (Examples.psg "ACGT" 0 "AACGTACGTAA") = Stop DivisionByZero /\
  is_exit DivisionByZero = false /\ is_undefined DivisionByZero = true /\
  exists g',
    main Examples.zeroed (Examples.psg "ACGT" 12 "AACGTACGTAA") = Ret g' /\
    chunk_size g' = 0 /\ trial_count g' = 0 /\ match_count g' = 0.
Proof.
  split; [by vm_compute|]. split; [done|]. split; [done|].
  eexists. split; [vm_compute; reflexivity|]. repeat split; by vm_compute.
Qed.

(** Whatever the files hold, [-n 0] reaches the division. *)
Lemma zero_workers_never_rejected junk cl g :
  load_files junk cl = Ret g -> opt_num_threads cl = 0 ->
  main junk cl = Stop DivisionByZero.
Proof.
  intros Hload Hn. unfold main. rewrite Hload. simpl. unfold Scan.search, Scan.partition.
  assert (num_threads g = 0) as ->.
  { unfold load_files in Hload. destruct (opt_pattern cl); [|done].
    destruct (decide _); [done|]. destruct (read_files _ _); [|done].
    by injection Hload as <-. }
  done.
Qed.

(** The schedule of [Examples.schedule] is a run of the two threads; it ends
    with both joined, one match and ten attempts. *)
Lemma interleaved_run :
  Threads.run Examples.schedule (Threads.boot Examples.partitioned) = Some Examples.final /\
  Threads.joined Examples.final /\
  match_count (Threads.shared Examples.final) = 1 /\
  trial_count (Threads.shared Examples.final) = 10.
Proof.
  split; [by vm_compute|]. split; [|split; by vm_compute].
  unfold Threads.joined. vm_compute. repeat constructor.
Qed.

(** ** Instances *)

Lemma partition_equal_contiguous_ranges_witness :
  exists g1,
    Scan.partition Examples.spanning = Ret g1 /\ chunk_size g1 = 10 / 2 /\
    fasta g1 = fasta Examples.spanning /\
    length (Scan.match_ptrs g1) = Z.to_nat 2 /\
    (forall i, (i < Z.to_nat 2)%nat ->
       Scan.match_ptrs g1 !! i = Some (Z.of_nat i * (10 / 2))) /\
    (forall i l, (i < Z.to_nat 2)%nat -> Scan.scan g1 (Z.of_nat i * (10 / 2)) = Ret l ->
       Scan.tested l = seqZ (Z.of_nat i * (10 / 2)) (10 / 2) /\
       forall o, o ∈ Scan.tested l ->
         Z.of_nat i * (10 / 2) <= o < (Z.of_nat i + 1) * (10 / 2) /\ o < 10 - 10 mod 2) /\
    2 * (10 / 2) = 10 - 10 mod 2 /\
    (Scan.defined Examples.spanning ->
       exists ls, Scan.scan_all g1 (Scan.match_ptrs g1) = Ret ls /\
                  length ls = Z.to_nat 2 /\
                  concat (map Scan.tested ls) = seqZ 0 (2 * (10 / 2))).
Proof.
  apply (partition_equal_contiguous_ranges Examples.spanning); by vm_compute.
Defined.

Lemma boundary_occurrence_counted_once_witness :
  exists g1 ls g',
    Scan.partition Examples.spanning = Ret g1 /\
    Scan.scan_all g1 (Scan.match_ptrs g1) = Ret ls /\
    Scan.search Examples.spanning = Ret g' /\
    match_count g' = 0 + Z.of_nat (length (concat (map Scan.hits ls))) /\
    count_occ Z.eq_dec (concat (map Scan.hits ls)) 4 = 1%nat /\
    (forall j l, ls !! j = Some l -> 4 ∈ Scan.hits l <-> j = Z.to_nat 0).
Proof.
  apply (boundary_occurrence_counted_once Examples.spanning 4 0); try by vm_compute.
  apply ScanFacts.in_block_defined. by vm_compute.
Defined.

Lemma append_copies_or_exits_witness :
  let f := Fasta.fasta_create Examples.zeroed 2048 in
  let stale := Fasta.gzgets [] (Examples.chars "AAAAAAAA" ++ [Fasta.newline]) in
  let data := Examples.chars "ACGT" in
  let line := Fasta.gzgets stale (data ++ [Fasta.newline]) in
  exists f',
    Fasta.copy_line line f = Ret f' /\
    cur_length f' = 0 + 4 /\ seq_ptr f' = cur_length f' /\
    max_length f' = 2048 /\ length (sequence f') = length (sequence f) /\
    take (Z.to_nat (cur_length f')) (sequence f') = take (Z.to_nat 0) (sequence f) ++ data /\
    drop (Z.to_nat (cur_length f')) (sequence f') = drop (Z.to_nat (cur_length f')) (sequence f) /\
    (0 + 4 + line_buffer_length > 2048 ->
       Fasta.read_line line f = Stop (BufferTooSmall (cur_length f') (max_length f'))) /\
    (0 + 4 + line_buffer_length <= 2048 ->
       Fasta.read_line line f = Ret f' /\ Fasta.roomy f').
Proof.
  apply (append_copies_or_exits (Fasta.fasta_create Examples.zeroed 2048)
           (Fasta.gzgets [] (Examples.chars "AAAAAAAA" ++ [Fasta.newline]))
           (Examples.chars "ACGT")).
  - by vm_compute.
  - apply (bool_decide_eq_false_1 (Fasta.newline ∈ Examples.chars "ACGT")). by vm_compute.
  - by vm_compute.
  - by vm_compute.
Defined.

Lemma totals_are_sums_of_locals_witness :
  (match_count Examples.partitioned = 0 /\ trial_count Examples.partitioned = 0) /\
  (exists m, rtc Threads.step (Threads.boot Examples.partitioned) m /\ Threads.joined m) /\
  (forall m, rtc Threads.step (Threads.boot Examples.partitioned) m ->
     (forall i j ti tj,
        Threads.threads m !! i = Some ti -> Threads.threads m !! j = Some tj ->
        Threads.in_critical (Threads.pc ti) = true ->
        Threads.in_critical (Threads.pc tj) = true ->
        i = j /\ Threads.mutex m = Some i) /\
     (Threads.joined m ->
        Scan.scan_all Examples.partitioned (Scan.match_ptrs Examples.partitioned)
          = Ret (map Threads.locals (Threads.threads m)) /\
        match_count (Threads.shared m)
          = sumZ (map Scan.local_count (map Threads.locals (Threads.threads m))) /\
        trial_count (Threads.shared m)
          = sumZ (map Scan.local_trial (map Threads.locals (Threads.threads m))))).
Proof.
  apply (totals_are_sums_of_locals Examples.zeroed (Examples.psg "ACGT" 2 "AAAAACGTAA")
           Examples.spanning Examples.partitioned).
  - by vm_compute.
  - by vm_compute.
  - apply ScanFacts.in_block_defined. by vm_compute.
Defined.

Lemma workers_change_only_the_counters_witness :
  fasta (Threads.shared Examples.final) = fasta Examples.partitioned /\
  pattern (Threads.shared Examples.final) = pattern Examples.partitioned /\
  chunk_size (Threads.shared Examples.final) = chunk_size Examples.partitioned /\
  num_threads (Threads.shared Examples.final) = num_threads Examples.partitioned /\
  verbose (Threads.shared Examples.final) = verbose Examples.partitioned.
Proof.
  apply (workers_change_only_the_counters (Threads.boot Examples.partitioned) Examples.final).
  apply (ThreadsFacts.run_steps Examples.schedule). by vm_compute.
Defined.

(** ** More on the worker's loop *)

Module LoopFacts.
Import Scan.

(** The counters of the loop count the entries of its log: [local_trial]
    all of them, [local_count] those with a match; and every entry records
    what strncmp returned at its offset. *)
Lemma loop_log g last fuel : forall l0 l,
  loop fuel g last l0 = Ret l ->
  local_count l - Z.of_nat (length (hits l)) = local_count l0 - Z.of_nat (length (hits l0)) /\
  local_trial l - Z.of_nat (length (tested l)) = local_trial l0 - Z.of_nat (length (tested l0)) /\
  (Forall (fun a => probe g (at_offset a) = Ret (at_match a, at_reads a)) (log l0) ->
   Forall (fun a => probe g (at_offset a) = Ret (at_match a, at_reads a)) (log l)).
Proof.
  induction fuel as [|fuel IH]; intros l0 l; simpl; [done|].
  destruct (decide (cur_location l0 <= last)); [|by intros [= <-]].
  unfold loop_body. destruct (probe g (cur_location l0)) as [[b rs]|] eqn:Hr; simpl; [|done].
  intros H. apply IH in H as (Hc & Ht & Hlog). unfold hits, tested in *. simpl in *.
  rewrite List.filter_app, !map_app, !length_app in *. simpl in *.
  split; [destruct b; simpl in *; lia|]. split; [lia|].
  intros H0. apply Hlog. apply Forall_app. split; [done|].
  constructor; [done|constructor].
Qed.

Lemma scan_counts g ptr l :
  scan g ptr = Ret l ->
  local_count l = Z.of_nat (length (hits l)) /\
  local_trial l = Z.of_nat (length (tested l)).
Proof.
  intros H. apply loop_log in H as (Hc & Ht & _). simpl in *. lia.
Qed.

Lemma scan_log g ptr l :
  scan g ptr = Ret l ->
  Forall (fun a => probe g (at_offset a) = Ret (at_match a, at_reads a)) (log l).
Proof. intros H. apply loop_log in H as (_ & _ & Hlog). by apply Hlog. Qed.

Lemma hits_tested l o : o ∈ hits l -> o ∈ tested l.
Proof.
  unfold hits, tested. rewrite !list_elem_of_In, !in_map_iff.
  intros (a & <- & Ha). apply List.filter_In in Ha as [Ha _]. eauto.
Qed.

End LoopFacts.

(** ** Whole files *)

Module IngestFacts.
Import Fasta Ingest.

Lemma appended_nil f : 0 <= seq_ptr f -> appended f [] = f.
Proof.
  intros H. destruct f as [s p m c]. unfold appended. simpl in *.
  rewrite Nat.add_0_r, take_drop, !Z.add_0_r. done.
Qed.

Lemma appended_app f d1 d2 :
  0 <= seq_ptr f ->
  seq_ptr f + Z.of_nat (length d1) <= Z.of_nat (length (sequence f)) ->
  appended (appended f d1) d2 = appended f (d1 ++ d2).
Proof.
  intros H0 H1. unfold appended. simpl. rewrite !length_app, !Nat2Z.inj_add, !Z.add_assoc.
  f_equal.
  set (p := Z.to_nat (seq_ptr f)).
  replace (Z.to_nat (seq_ptr f + Z.of_nat (length d1))) with (p + length d1)%nat by lia.
  assert (length (take p (sequence f)) = p) as Hp by (apply length_take_le; lia).
  rewrite (app_assoc _ d1).
  rewrite (take_app_length' (take p (sequence f) ++ d1))
    by (rewrite length_app; lia).
  rewrite (drop_app_ge (take p (sequence f) ++ d1))
    by (rewrite length_app; lia).
  rewrite drop_drop, length_app, Hp, <- !app_assoc.
  f_equal. f_equal. f_equal. f_equal. lia.
Qed.

Lemma appended_roomy f d :
  roomy f -> room_for f d -> roomy (appended f d).
Proof.
  unfold roomy, room_for, appended, line_buffer_length. simpl.
  intros (Hp & Hc & Hm & Hr) Hroom.
  rewrite !length_app, length_take_le, length_drop by lia. lia.
Qed.

(** The copy loop in closed form. *)
Lemma copy_line_appended f d :
  newline ∉ d -> 0 <= seq_ptr f ->
  seq_ptr f + Z.of_nat (length d) <= Z.of_nat (length (sequence f)) ->
  copy_line (line_of d) f = Ret (appended f d).
Proof.
  intros Hnl H0 H1. unfold line_of.
  destruct (FastaFacts.copy_line_spec d f Hnl H0 H1)
    as (f' & -> & Hsp & Hcl & Hml & Hlen & Htake & Hdrop).
  f_equal. destruct f' as [s' p' m' c']. unfold appended. simpl in *. subst p' m' c'.
  f_equal. rewrite <- (take_drop (Z.to_nat (seq_ptr f + Z.of_nat (length d))) s').
  rewrite Htake, Hdrop, <- app_assoc. f_equal. f_equal. f_equal. lia.
Qed.

(** One turn of the reading loop from a state with a line buffer of room. *)
Lemma read_line_closed f d :
  roomy f -> text_line d ->
  let f1 := if is_annotation d then f else appended f d in
  cur_length f1 = cur_length f + Z.of_nat (length (kept [d])) /\
  max_length f1 = max_length f /\
  read_line (line_of d) f =
    if decide (cur_length f1 + line_buffer_length > max_length f1)
    then Stop (BufferTooSmall (cur_length f1) (max_length f1)) else Ret f1.
Proof.
  intros (Hp & Hc & Hm & Hr) [Hnl Hlen] f1.
  unfold line_of in Hlen. rewrite length_app in Hlen. cbn [length] in Hlen.
  unfold kept, read_line. subst f1. destruct d as [|c d].
  - cbn [is_annotation]. rewrite appended_nil by lia. simpl. split; [lia|]. done.
  - cbn -[copy_line appended]. destruct (Ascii.eqb c ">"%char) eqn:Hann; cbn -[copy_line appended].
    + split; [lia|]. done.
    + rewrite app_nil_r. split; [done|]. split; [done|].
      change (c :: d ++ [newline]) with (line_of (c :: d)).
      rewrite copy_line_appended; [done|done|lia|].
      unfold line_buffer_length in *. simpl in *. lia.
Qed.

Lemma kept_cons d ds : kept (d :: ds) = kept [d] ++ kept ds.
Proof. unfold kept. simpl. destruct (negb (is_annotation d)); simpl; by rewrite ?app_nil_r. Qed.

Lemma read_line_of b d f :
  read_line (gzgets b (line_of d)) f = read_line (line_of d) f.
Proof. apply FastaFacts.read_line_gzgets. Qed.

(** The reading loop in closed form, whatever the line buffer holds. *)
Lemma read_lines_closed datas : forall b f,
  roomy f -> Forall text_line datas ->
  (datas = [] \/ room_for f (kept datas) ->
     read_lines (map line_of datas) b f = Ret (appended f (kept datas))) /\
  (datas <> [] -> ~ room_for f (kept datas) ->
     exists c, read_lines (map line_of datas) b f
                 = Stop (BufferTooSmall c (max_length f)) /\
               cur_length f <= c <= cur_length f + Z.of_nat (length (kept datas)) /\
               c + line_buffer_length > max_length f).
Proof.
  induction datas as [|d ds IH]; intros b f Hroomy Hall.
  - split; [|done]. intros _. simpl. pose proof Hroomy as (Hp & Hc & _).
    rewrite appended_nil by lia. done.
  - apply Forall_cons in Hall as [Hd Hds].
    destruct (read_line_closed f d Hroomy Hd) as (Hc1 & Hm1 & Hread).
    set (f1 := if is_annotation d then f else appended f d) in *.
    cbn [map read_lines]. rewrite read_line_of, Hread. rewrite kept_cons.
    pose proof (length_app (kept [d]) (kept ds)) as Hlen.
    unfold room_for in *.
    destruct (decide (cur_length f1 + line_buffer_length > max_length f1)) as [Hfull|Hfits].
    + split; [intros [?|?]; [done|lia]|]. intros _ _. exists (cur_length f1).
      simpl. rewrite Hm1. split; [done|]. lia.
    + assert (roomy f1) as Hroomy1.
      { subst f1. destruct (is_annotation d); [done|].
        apply appended_roomy; [done|]. unfold room_for. clear Hc1 Hm1 Hread.
        simpl in Hfits. lia. }
      assert (f1 = appended f (kept [d])) as Hf1.
      { subst f1. unfold kept. simpl. destruct (is_annotation d); simpl.
        - destruct Hroomy as (Hp & Hc & _). rewrite appended_nil by lia. done.
        - by rewrite app_nil_r. }
      destruct (IH (gzgets b (line_of d)) f1 Hroomy1 Hds) as [IHret IHstop]. simpl.
      assert (appended f1 (kept ds) = appended f (kept [d] ++ kept ds)) as Happ.
      { rewrite Hf1. apply appended_app.
        - destruct Hroomy as (Hp & Hc & _). lia.
        - destruct Hroomy as (Hp & Hc & Hm & Hr).
          rewrite Hm1 in Hfits. unfold line_buffer_length in *. lia. }
      split.
      * intros Hroom. rewrite IHret, Happ; [done|].
        destruct ds as [|d' ds']; [by left|right]. destruct Hroom as [?|Hroom]; [done|]. lia.
      * intros _ Hnoroom.
        destruct ds as [|d' ds'].
        { exfalso. apply Hnoroom. change (length (kept [])) with 0%nat in Hlen. lia. }
        destruct IHstop as (c & Hstop & Hc & Hfull); [done|lia|].
        exists c. rewrite Hstop, Hm1. split; [done|]. lia.
Qed.

(** Lines delivered with their newline are read in the same way whatever
    the line buffer holds. *)
Lemma read_lines_buffer ds : forall b b' f,
  read_lines (map line_of ds) b f = read_lines (map line_of ds) b' f.
Proof.
  induction ds as [|d ds IH]; intros b b' f; cbn [map read_lines]; [done|].
  rewrite !read_line_of. destruct (read_line (line_of d) f) as [f1|]; simpl; [apply IH|done].
Qed.

Lemma read_lines_of_app ds1 ds2 : forall b f,
  read_lines (map line_of (ds1 ++ ds2)) b f
  = do f' <- read_lines (map line_of ds1) b f; read_lines (map line_of ds2) [] f'.
Proof.
  induction ds1 as [|d ds1 IH]; intros b f; cbn [app map read_lines bind].
  - apply read_lines_buffer.
  - rewrite !read_line_of. destruct (read_line (line_of d) f) as [f1|]; simpl; [apply IH|done].
Qed.

Lemma read_files_text fls : forall f,
  read_files (map (fun ds => Some (map line_of ds)) fls) f
  = read_lines (map line_of (concat fls)) [] f.
Proof.
  induction fls as [|ds fls IH]; intros f; simpl; [done|].
  rewrite read_lines_of_app.
  destruct (read_lines (map line_of ds) [] f) as [f1|]; simpl; [apply IH|done].
Qed.

Lemma read_lines_app l1 l2 : forall b f,
  read_lines (l1 ++ l2) b f
  = do f' <- read_lines l1 b f; read_lines l2 (fold_left gzgets l1 b) f'.
Proof.
  induction l1 as [|line l1 IH]; intros b f; cbn [app read_lines fold_left bind]; [done|].
  destruct (read_line (gzgets b line) f) as [f1|]; simpl; [apply IH|done].
Qed.

(** The line buffer when a line without newline has been stored over a
    longer line: the line, a NUL, the tail of the longer line and its
    newline. *)
Lemma gzgets_over_longer b d1 d2 :
  (length d2 < length d1)%nat ->
  exists rest,
    gzgets (gzgets b (line_of d1)) d2
    = (d2 ++ CString.NUL :: drop (S (length d2)) d1) ++ newline :: rest.
Proof.
  intros Hlen. unfold gzgets, line_of.
  exists (CString.NUL :: drop (S (length (d1 ++ [newline]))) b).
  rewrite (drop_app_le (d1 ++ [newline])) by (rewrite length_app; lia).
  rewrite (drop_app_le d1) by lia.
  rewrite <- !app_assoc. done.
Qed.

End IngestFacts.

(** ** main from the command line to the report *)

Module MainFacts.
Import Fasta Ingest.

Lemma fasta_create_roomy junk n :
  line_buffer_length <= n -> roomy (fasta_create junk n).
Proof.
  unfold roomy, fasta_create, malloc, line_buffer_length. simpl.
  rewrite length_map, length_seq. lia.
Qed.

(** *** The stops of each stage *)

Lemma copy_line_stops line : forall f,
  match copy_line line f with
  | Ret f' => max_length f' = max_length f
  | Stop why => why = NoNewline \/ exists i, why = OutOfBounds i
  end.
Proof.
  induction line as [|c line IH]; intros f; simpl; [by left|].
  destruct (Ascii.eqb c newline); [done|].
  unfold push, Mem.store. destruct (decide _); simpl; [|eauto].
  match goal with |- context [copy_line line ?f1] => specialize (IH f1) end.
  destruct (copy_line line _); simpl in *; done.
Qed.

Lemma read_line_stops line f :
  match read_line line f with
  | Ret f' => max_length f' = max_length f
  | Stop why => Causes.of_reading (max_length f) why
  end.
Proof.
  unfold read_line.
  assert (match copy_line line f with
          | Ret f' => max_length f' = max_length f
          | Stop why => Causes.of_reading (max_length f) why
          end) as Hcopy.
  { pose proof (copy_line_stops line f) as H.
    destruct (copy_line line f); [done|]. by destruct H as [->|[i ->]]. }
  assert (forall r : result fasta_t,
            match r with
            | Ret f' => max_length f' = max_length f
            | Stop why => Causes.of_reading (max_length f) why
            end ->
            match (do f' <- r;
                   if decide (cur_length f' + line_buffer_length > max_length f')
                   then Stop (BufferTooSmall (cur_length f') (max_length f'))
                   else Ret f') with
            | Ret f' => max_length f' = max_length f
            | Stop why => Causes.of_reading (max_length f) why
            end) as Hcheck.
  { intros [f'|why] H; simpl; [|done].
    destruct (decide _); simpl; [|done]. split; [done|]. by rewrite <- H. }
  apply Hcheck. destruct line as [|c line]; [done|].
  by destruct (Ascii.eqb c ">"%char).
Qed.

Lemma read_lines_stops lines : forall b f,
  match read_lines lines b f with
  | Ret f' => max_length f' = max_length f
  | Stop why => Causes.of_reading (max_length f) why
  end.
Proof.
  induction lines as [|line lines IH]; intros b f; simpl; [done|].
  pose proof (read_line_stops (gzgets b line) f) as H.
  destruct (read_line (gzgets b line) f) as [f1|]; simpl; [|done].
  specialize (IH (gzgets b line) f1). rewrite H in IH. done.
Qed.

Lemma read_files_stops fs : forall f,
  match read_files fs f with
  | Ret f' => max_length f' = max_length f
  | Stop why => (why = CantOpen /\ None ∈ fs) \/ Causes.of_reading (max_length f) why
  end.
Proof.
  induction fs as [|file fs IH]; intros f; simpl; [done|].
  destruct file as [lines|]; simpl; [|left; split; [done|left]].
  pose proof (read_lines_stops lines [] f) as H.
  destruct (read_lines lines [] f) as [f1|]; simpl; [|by right].
  specialize (IH f1). rewrite H in IH.
  destruct (read_files fs f1); [done|].
  destruct IH as [[-> Hin]|IH]; [left; split; [done|by right]|by right].
Qed.

Lemma loop_stops g last fuel : forall l why,
  Scan.loop fuel g last l = Stop why ->
  why = OutOfFuel \/ exists i, why = OutOfBounds i.
Proof.
  induction fuel as [|fuel IH]; intros l why; simpl; [intros [= <-]; by left|].
  destruct (decide _); [|done]. unfold Scan.loop_body.
  destruct (Scan.probe g (Scan.cur_location l)) as [r|w] eqn:E; simpl.
  - apply IH.
  - intros [= <-]. right. by apply ScanFacts.probe_stop in E.
Qed.

Lemma run_workers_stops ptrs : forall g why,
  Scan.run_workers ptrs g = Stop why -> exists i, why = OutOfBounds i.
Proof.
  induction ptrs as [|ptr ptrs IH]; intros g why; simpl; [done|].
  unfold Scan.parallel_match.
  destruct (Scan.scan g ptr) as [l|w] eqn:E; simpl; [apply IH|].
  intros [= <-]. pose proof (ScanFacts.scan_fuel g ptr) as Hfuel.
  destruct (loop_stops _ _ _ _ _ E) as [->|?]; [by rewrite E in Hfuel|done].
Qed.

(** *** The calls that can fail *)

Lemma check_calls_Ret msge call n : forall i,
  (forall j, (i <= j < i + n)%nat -> call j = 0) ->
  Run.check_calls msge call i n = Ret tt.
Proof.
  induction n as [|n IH]; intros i Hcall; simpl; [done|].
  unfold Run.check_thread_rtn. rewrite decide_True by (apply Hcall; lia). simpl.
  apply IH. intros j Hj. apply Hcall. lia.
Qed.

Lemma check_calls_stops msge call n : forall i why,
  Run.check_calls msge call i n = Stop why ->
  exists j, (i <= j < i + n)%nat /\ call j <> 0 /\ why = ThreadError msge (call j).
Proof.
  induction n as [|n IH]; intros i why; simpl; [done|].
  unfold Run.check_thread_rtn. destruct (decide (call i = 0)) as [H0|H0]; simpl.
  - intros (j & Hj & H)%IH. exists j. split; [lia|done].
  - intros [= <-]. exists i. split; [lia|done].
Qed.

(** In a system that serves the run, [Run.main] is [main]. *)
Lemma search_served s g :
  Run.serves s (num_threads g) -> Run.search s g = Scan.search g.
Proof.
  intros (_ & _ & Hinit & Hcalls). unfold Run.search, Scan.search, Scan.partition.
  destruct (decide (num_threads g < 0)); [done|].
  unfold Run.check_thread_rtn. rewrite decide_True by done. simpl.
  destruct (decide (num_threads g = 0)); [done|]. simpl.
  rewrite !check_calls_Ret by (intros j Hj; apply Hcalls; lia). simpl.
  by destruct (Scan.run_workers _ _).
Qed.

Lemma main_served s junk cl :
  Run.serves s (opt_num_threads cl) -> Run.main s junk (Run.Parsed cl) = main junk cl.
Proof.
  intros Hs. pose proof Hs as (Hf & Hq & _). unfold Run.main, main, load_files.
  destruct (opt_pattern cl) as [pat|]; [|done].
  destruct (decide (opt_max_length cl = 0)); [done|].
  unfold Run.fasta_create. rewrite Hf, Hq. simpl.
  destruct (read_files _ _) as [f|]; simpl; [|done].
  by apply search_served.
Qed.

(** The exits of the search and of [Run.main]. *)
Lemma search_exits s g why :
  Run.search s g = Stop why -> is_exit why = true ->
  exists msge rtn, why = ThreadError msge rtn /\ rtn <> 0 /\
    (msge = "mutex init"%string /\ rtn = Run.mutex_init s \/
     exists i : nat, Z.of_nat i < num_threads g /\
       (msge = "create"%string /\ rtn = Run.create s i \/
        msge = "join"%string /\ rtn = Run.join s i)).
Proof.
  unfold Run.search, Scan.partition.
  destruct (decide (num_threads g < 0)); [by intros [= <-]|].
  unfold Run.check_thread_rtn at 1.
  destruct (decide (Run.mutex_init s = 0)) as [H0|H0]; simpl.
  2:{ intros [= <-] _. eexists _, _. split; [done|]. split; [done|]. by left. }
  destruct (decide (num_threads g = 0)); simpl; [by intros [= <-]|].
  destruct (Run.check_calls "create" _ _ _) as [[]|w] eqn:Hc; simpl.
  2:{ intros [= <-] _. apply check_calls_stops in Hc as (j & Hj & Hrtn & ->).
      eexists _, _. split; [done|]. split; [done|]. right. exists j. split; [lia|by left]. }
  destruct (Scan.run_workers _ _) as [g''|w] eqn:Hw; simpl.
  2:{ intros [= <-]. apply run_workers_stops in Hw as [i ->]. done. }
  destruct (Run.check_calls "join" _ _ _) as [[]|w] eqn:Hj; simpl; [done|].
  intros [= <-] _. apply check_calls_stops in Hj as (j & Hj & Hrtn & ->).
  eexists _, _. split; [done|]. split; [done|]. right. exists j. split; [lia|by right].
Qed.

Lemma main_exits s junk o why :
  Run.main s junk o = Stop why -> is_exit why = true -> Causes.of_exit s o why.
Proof.
  unfold Run.main. destruct o as [|cl]; [by intros [= <-]|].
  destruct (opt_pattern cl) as [pat|] eqn:Hpat; [|intros [= <-] _; simpl; by left].
  destruct (decide (opt_max_length cl = 0)); [intros [= <-] _; simpl; by right|].
  unfold Run.fasta_create. destruct (Run.malloc_fasta s); simpl; [|by intros [= <-]].
  match goal with |- context [read_files (files cl) ?f0] =>
    pose proof (read_files_stops (files cl) f0) as H; destruct (read_files (files cl) f0) as [f|w]
  end; simpl.
  - intros Hs Hexit. destruct (search_exits _ _ _ Hs Hexit) as (msge & rtn & -> & Hrtn & Hwhich).
    simpl. split; [done|]. exists cl. split; [done|]. exact Hwhich.
  - intros [= <-] Hexit. destruct H as [[-> Hin]|H]; [simpl; eauto|].
    destruct w; simpl in *; try done.
    destruct H as [-> H]. exists cl. split; [done|]. split; [|done].
    by destruct (Run.malloc_sequence s).
Qed.

(** *** The data in the block after ingestion *)

Lemma appended_data f d :
  roomy f -> room_for f d ->
  take (Z.to_nat (cur_length (appended f d))) (sequence (appended f d))
    = take (Z.to_nat (cur_length f)) (sequence f) ++ d /\
  drop (Z.to_nat (cur_length (appended f d))) (sequence (appended f d))
    = drop (Z.to_nat (cur_length (appended f d))) (sequence f).
Proof.
  intros (Hp & Hc & Hm & Hr) Hroom. unfold room_for, line_buffer_length in *.
  unfold appended. simpl. rewrite Hp.
  set (p := Z.to_nat (cur_length f)).
  replace (Z.to_nat (cur_length f + Z.of_nat (length d))) with (p + length d)%nat by lia.
  assert (length (take p (sequence f)) = p) as Hlen by (apply length_take_le; lia).
  rewrite app_assoc. split.
  - rewrite take_app_length'; [done|]. rewrite length_app. lia.
  - rewrite drop_app_length'; [done|]. rewrite length_app. lia.
Qed.

End MainFacts.


(** X2: from a buffer in which at least [line_buffer_length] bytes are free
    (the state [fasta_create] leaves for a size of [line_buffer_length] or
    more, and every completed call of [fasta_read_file] after it), reading
    a file of text lines whose data lines leave less than a line buffer of
    room ends in the exit "fasta buffer too small", with no byte written
    outside the block: the exit is taken behind the first line after which
    fewer than [line_buffer_length] bytes are free, also when all of the
    data would have fitted.  (Without that room at the start the first
    line is copied unchecked, see [first_line_is_copied_unchecked].) *)
Theorem reading_exits_when_room_runs_out (f : fasta_t) (datas : list (list ascii)) :
  Fasta.roomy f -> Forall Ingest.text_line datas ->
  ~ Ingest.room_for f (Ingest.kept datas) ->
  exists c,
    Fasta.fasta_read_file (Some (map Ingest.line_of datas)) f
      = Stop (BufferTooSmall c (max_length f)) /\
    cur_length f <= c <= cur_length f + Z.of_nat (length (Ingest.kept datas)) /\
    c + line_buffer_length > max_length f.
Proof.
  intros Hroomy Hall Hroom.
  destruct (IngestFacts.read_lines_closed datas [] f Hroomy Hall) as [_ Hstop].
  apply Hstop; [|done]. intros ->. apply Hroom.
  destruct Hroomy as (_ & _ & _ & Hr). unfold Ingest.room_for, Ingest.kept. simpl. lia.
Qed.

(** X3: for files of text lines, reading them one after the other is
    reading the one file that holds their lines end to end: what a file left
    in the line buffer plays no part in the next. *)
Theorem files_are_read_as_one (fls : list (list (list ascii))) (f : fasta_t) :
  Forall (Forall Ingest.text_line) fls ->
  read_files (map (fun ds => Some (map Ingest.line_of ds)) fls) f
  = Fasta.fasta_read_file (Some (map Ingest.line_of (concat fls))) f.
Proof. intros _. apply IngestFacts.read_files_text. Qed.


(** X5: each message with which [main] exits names its cause.  The usage
    message needs the option loop or the check behind it to ask for it;
    "can't open" a file that cannot be opened; "buffer too small" reports
    the size given and a length that leaves less than a line buffer of room;
    "ERROR: msge (rtn)" reports the value, not zero, that pthread_mutex_init
    returned or that pthread_create or pthread_join returned for one of the
    [num_threads] threads. *)
Theorem every_exit_has_its_cause (s : Run.system) (junk : nat -> ascii)
    (o : Run.options) (why : stop) :
  Run.main s junk o = Stop why -> is_exit why = true -> Causes.of_exit s o why.
Proof. apply MainFacts.main_exits. Qed.

(** X6: a file that cannot be opened leaves the run without a report,
    wherever it stands on the command line. *)
Theorem missing_file_means_no_report (junk : nat -> ascii) (cl : command_line) :
  None ∈ files cl -> exists why, main junk cl = Stop why.
Proof.
  intros Hin. unfold main, load_files.
  destruct (opt_pattern cl); simpl; [|eauto].
  destruct (decide _); simpl; [eauto|].
  assert (forall fs f, None ∈ fs -> exists why, read_files fs f = Stop why) as Hfs.
  { clear. induction fs as [|file fs IH]; intros f Hin; [by apply elem_of_nil in Hin|].
    simpl. destruct file as [lines|]; simpl; [|eauto].
    destruct (Fasta.read_lines lines [] f) as [f1|]; simpl; [|eauto].
    apply IH. apply elem_of_cons in Hin as [?|?]; done. }
  destruct (Hfs (files cl) (Fasta.fasta_create junk (opt_max_length cl)) Hin) as [why ->].
  simpl. eauto.
Qed.


(** X8: in a system that serves the run, on files of text lines that
    leave a line buffer of room in the block, on memory that holds a NUL
    behind the data (fresh, zero-filled pages) and with a worker count of at
    least one that divides the length of the data, the report of [main] is
    exact, for a pattern of any length: every offset of the data is
    attempted once and the match count is the number of occurrences of the
    pattern in the data lines laid end to end. *)
Theorem main_exact_on_fresh_memory (s : Run.system) (junk : nat -> ascii)
    (cl : command_line) (pat : list ascii) (fls : list (list (list ascii))) :
  Run.serves s (opt_num_threads cl) ->
  opt_pattern cl = Some pat ->
  files cl = map (fun lines => Some (map Ingest.line_of lines)) fls ->
  Forall (Forall Ingest.text_line) fls ->
  1 <= opt_num_threads cl ->
  let data := Ingest.kept (concat fls) in
  let n := Z.of_nat (length data) in
  n + line_buffer_length <= opt_max_length cl ->
  n mod opt_num_threads cl = 0 ->
  junk (length data) = CString.NUL ->
  exists g,
    Run.main s junk (Run.Parsed cl) = Ret g /\
    trial_count g = n /\
    match_count g = Spec.single_threaded_scan data (take (CString.strlen pat) pat).
Proof.
  intros Hserved Hpat Hfiles Hall Hw data n Hn Hmod Hnul.
  rewrite (MainFacts.main_served s junk cl Hserved).
  assert (line_buffer_length <= opt_max_length cl) as Hmax by lia.
  pose proof (MainFacts.fasta_create_roomy junk _ Hmax) as Hroomy.
  apply Forall_concat in Hall.
  destruct (IngestFacts.read_lines_closed _ [] _ Hroomy Hall) as [Hret _].
  unfold main, load_files. rewrite Hpat, Hfiles, IngestFacts.read_files_text.
  rewrite decide_False by (unfold line_buffer_length in *; lia).
  fold data in Hret. rewrite Hret by (right; unfold Ingest.room_for; simpl; lia). simpl.
  set (f := Ingest.appended _ data).
  assert (cur_length f = n) as Hcur by (subst f; simpl; lia).
  destruct (MainFacts.appended_data (Fasta.fasta_create junk (opt_max_length cl))
              data Hroomy) as [Htake Hdrop]; [unfold Ingest.room_for; simpl; lia|].
  fold f in Htake, Hdrop. rewrite Hcur in Htake, Hdrop.
  cbn [Fasta.fasta_create cur_length sequence] in Htake, Hdrop.
  assert (sequence f !! Z.to_nat n = Some CString.NUL) as Hbehind.
  { rewrite <- (Nat.add_0_r (Z.to_nat n)), <- lookup_drop, Hdrop, lookup_drop.
    unfold Fasta.malloc. rewrite list_lookup_fmap, lookup_seq_lt.
    - simpl. subst n. rewrite Nat.add_0_r, Nat2Z.id. by rewrite Hnul.
    - unfold line_buffer_length in *. lia. }
  clearbody f.
  set (g := {| verbose := opt_verbose cl; pattern := pat;
               num_threads := opt_num_threads cl; fasta := f;
               match_count := 0; trial_count := 0; chunk_size := 0 |}).
  destruct (ScanFacts.search_exact_when_terminated g) as (g' & Hs & Ht & Hm).
  - done.
  - simpl. lia.
  - simpl. by rewrite Hcur.
  - simpl. by rewrite Hcur.
  - exists g'. split; [done|]. simpl in Ht, Hm. rewrite Hcur in Ht, Hm.
    rewrite Htake in Hm. split; [lia|]. unfold Scan.pattern_length in Hm. simpl in Hm. lia.
Qed.

(** X22: a last line that gzgets delivers without a newline (the file does
    not end in one) is not read as it stands: the copy loop does not stop at
    the NUL behind it and runs on into what the line before left in the line
    buffer.  When the line before is a longer text line, the file is read as
    if its last line were the unterminated line, a NUL and the tail of the
    line before from that offset on. *)
Theorem unterminated_line_takes_stale_bytes (f : fasta_t) (ds : list (list ascii))
    (d1 d2 : list ascii) :
  Forall Ingest.text_line (ds ++ [d1]) ->
  Fasta.newline ∉ d2 -> (0 < length d2 < length d1)%nat ->
  Fasta.fasta_read_file (Some (map Ingest.line_of (ds ++ [d1]) ++ [d2])) f
  = Fasta.fasta_read_file
      (Some (map Ingest.line_of
               (ds ++ [d1; d2 ++ CString.NUL :: drop (S (length d2)) d1]))) f.
Proof.
  intros _ _ [_ Hlen]. unfold Fasta.fasta_read_file.
  rewrite !map_app, <- app_assoc, !IngestFacts.read_lines_app.
  destruct (Fasta.read_lines (map Ingest.line_of ds) [] f) as [f1|]; [|done].
  generalize (fold_left Fasta.gzgets (map Ingest.line_of ds) []). intros b.
  cbn [map app Fasta.read_lines bind].
  destruct (Fasta.read_line (Fasta.gzgets b (Ingest.line_of d1)) f1) as [f2|]; [|done].
  cbn [bind].
  destruct (IngestFacts.gzgets_over_longer b d1 d2 Hlen) as [rest ->].
  rewrite FastaFacts.read_line_rest, IngestFacts.read_line_of. done.
Qed.

(** The file AAAAAAAA, newline, CC is loaded as AAAAAAAACC, NUL, AAAAA:
    [psg -b 2048 -p AAAAA -n 1] reports 5 matches in 16 attempts where the two
    data lines hold 4 occurrences. *)
Lemma unterminated_file_run :
  exists g,
    main Examples.zeroed
         {| opt_verbose := false; opt_max_length := 2048;
            opt_pattern := Some (Examples.chars "AAAAA"); opt_num_threads := 1;
            files := [Some [Ingest.line_of (Examples.chars "AAAAAAAA");
                            Examples.chars "CC"]] |} = Ret g /\
    Examples.data_of g
      = Examples.chars "AAAAAAAACC" ++ CString.NUL :: Examples.chars "AAAAA" /\
    match_count g = 5 /\ trial_count g = 16 /\
    Spec.single_threaded_scan (Examples.chars "AAAAAAAACC") (Examples.chars "AAAAA") = 4.
Proof.
  eexists. split; [vm_compute; reflexivity|]. repeat split; by vm_compute.
Qed.

(** ** The search beside the settled questions *)

Module SearchFacts.
Import Scan.

Lemma filter_all {A} (p : A -> bool) (l : list A) :
  Forall (fun a => p a = true) l -> List.filter p l = l.
Proof. induction 1 as [|a l Ha _ IH]; simpl; [done|]. by rewrite Ha, IH. Qed.

Lemma probe_empty_pattern g o :
  pattern_length g = 0%nat -> probe g o = Ret (true, []).
Proof. unfold probe. by intros ->. Qed.

Lemma sumZ_zero {A} (f : A -> Z) (l : list A) :
  Forall (fun a => f a = 0) l -> sumZ (map f l) = 0.
Proof. induction 1 as [|a l Ha _ IH]; simpl; [done|]. rewrite Ha, IH. done. Qed.

End SearchFacts.

(** X9: with the empty pattern ([-p ""]) strncmp compares no byte and
    reports equality, so every attempt is counted as a match: both counters
    grow by [num_threads * chunk_size], whatever the data. *)
Theorem empty_pattern_matches_everywhere (g : globals) :
  1 <= num_threads g -> 0 <= cur_length (fasta g) ->
  Scan.pattern_length g = 0%nat ->
  exists g',
    Scan.search g = Ret g' /\
    trial_count g' = trial_count g + num_threads g * (cur_length (fasta g) / num_threads g) /\
    match_count g' - match_count g = trial_count g' - trial_count g.
Proof.
  intros Hw HL Hp.
  assert (Scan.defined g) as Hd by (intros o _; rewrite SearchFacts.probe_empty_pattern; eauto).
  destruct (ScanFacts.search_spec g Hw HL Hd) as (g' & Hs & _ & Ht & Hm).
  exists g'. split; [done|]. split; [done|]. rewrite Hm, Ht.
  rewrite SearchFacts.filter_all.
  - unfold Scan.attempts. rewrite length_map, length_seqZ.
    assert (0 <= cur_length (fasta g) / num_threads g) by (apply Z.div_pos; lia). lia.
  - apply Forall_forall. intros a Ha. apply ScanFacts.elem_of_map in Ha as (o & _ & ->).
    by rewrite (ScanFacts.attempt_at_Ret g o (true, [])) by by apply SearchFacts.probe_empty_pattern.
Qed.

(** X10: with more workers than bytes of data the quotient [chunk_size] is 0:
    every worker leaves its loop at once, nothing is read, and the program
    reports zero attempts and zero matches although the data may hold the
    pattern. *)
Theorem more_workers_than_bytes (g : globals) :
  0 <= cur_length (fasta g) < num_threads g ->
  exists g',
    Scan.search g = Ret g' /\ chunk_size g' = 0 /\
    match_count g' = match_count g /\ trial_count g' = trial_count g /\
    forall ptr l, Scan.scan g' ptr = Ret l -> Scan.reads l = [] /\ Scan.tested l = [].
Proof.
  intros HL. unfold Scan.search. rewrite ScanFacts.partition_Ret by lia. simpl.
  rewrite Z.div_small by lia.
  set (g1 := set_chunk_size g 0).
  rewrite (ScanFacts.run_workers_scan_all _ g1 g1) by apply ScanFacts.same_input_refl.
  rewrite ScanFacts.scan_all_spec; [|done|simpl; intros; lia]. simpl.
  eexists. split; [done|].
  pose proof (ScanFacts.merge_all_frame (map (Scan.scan_result g1) (Scan.match_ptrs g1)) g1)
    as (_ & _ & _ & _ & Hc).
  split; [by rewrite Hc|].
  rewrite ScanFacts.merge_all_match_count, ScanFacts.merge_all_trial_count.
  rewrite !SearchFacts.sumZ_zero; [simpl; split; [lia|split; [lia|]]|..].
  - intros ptr l. rewrite (ScanFacts.scan_frame g1) by apply ScanFacts.merge_all_frame.
    rewrite ScanFacts.scan_spec; [|done|simpl; intros; lia]. by intros [= <-].
  - apply Forall_forall. intros l Hl. by apply ScanFacts.elem_of_map in Hl as (ptr & _ & ->).
  - apply Forall_forall. intros l Hl. by apply ScanFacts.elem_of_map in Hl as (ptr & _ & ->).
Qed.

(** X11: a worker counts a match only where the block holds the pattern:
    each offset it counts lies in its own chunk, and the [pattern_length]
    bytes of the block at that offset are the bytes of the pattern.  Where
    these bytes lie inside the data, the offset is an occurrence. *)
Theorem counted_matches_are_real (g : globals) (ptr o : Z) (l : Scan.local_t) :
  0 <= ptr -> 0 <= chunk_size g ->
  Scan.scan g ptr = Ret l -> o ∈ Scan.hits l ->
  ptr <= o < ptr + chunk_size g /\
  take (Scan.pattern_length g) (drop (Z.to_nat o) (sequence (fasta g)))
    = take (Scan.pattern_length g) (pattern g) /\
  (o + Z.of_nat (Scan.pattern_length g) <= cur_length (fasta g) -> Scan.occurrence g o).
Proof.
  intros Hptr Hc Hscan Ho.
  assert (ptr <= o < ptr + chunk_size g) as Hrange.
  { apply LoopFacts.hits_tested in Ho. rewrite (ScanFacts.scan_tested _ _ _ Hc Hscan) in Ho.
    apply elem_of_seqZ in Ho. lia. }
  assert (take (Scan.pattern_length g) (drop (Z.to_nat o) (sequence (fasta g)))
          = take (Scan.pattern_length g) (pattern g)) as Heq.
  { pose proof (LoopFacts.scan_log _ _ _ Hscan) as Hlog.
    unfold Scan.hits in Ho. apply list_elem_of_In, in_map_iff in Ho as (a & <- & Ha).
    apply List.filter_In in Ha as [Ha Hm].
    rewrite Forall_forall in Hlog. specialize (Hlog a (proj2 (list_elem_of_In _ _) Ha)).
    unfold Scan.probe in Hlog.
    apply CStringFacts.strncmp_equal in Hlog; [|done|lia].
    rewrite Hm in Hlog. symmetry in Hlog. by apply bool_decide_eq_true in Hlog. }
  split; [done|]. split; [done|]. intros Hend. unfold Scan.occurrence. split; [lia|done].
Qed.

(** X12: the totals of a search, for any data and pattern: the attempts are
    [num_threads * (cur_length / num_threads)], which is at most [cur_length]
    and more than [cur_length - num_threads], and the matches are at most the
    attempts.  The additions of the program therefore stay below
    [cur_length], far from the range of [long]. *)
Theorem totals_of_a_search (g : globals) :
  1 <= num_threads g -> 0 <= cur_length (fasta g) -> Scan.defined g ->
  exists g',
    Scan.search g = Ret g' /\
    trial_count g' - trial_count g = num_threads g * (cur_length (fasta g) / num_threads g) /\
    cur_length (fasta g) - num_threads g < trial_count g' - trial_count g
      <= cur_length (fasta g) /\
    0 <= match_count g' - match_count g <= trial_count g' - trial_count g.
Proof.
  intros Hw HL Hd.
  destruct (ScanFacts.search_spec g Hw HL Hd) as (g' & Hs & _ & Ht & Hm).
  exists g'. split; [done|].
  assert (0 <= cur_length (fasta g) / num_threads g) as Hc0 by (apply Z.div_pos; lia).
  pose proof (Z.div_mod (cur_length (fasta g)) (num_threads g)).
  pose proof (Z.mod_pos_bound (cur_length (fasta g)) (num_threads g)).
  pose proof (List.filter_length_le Scan.at_match
    (Scan.attempts g 0 (num_threads g * (cur_length (fasta g) / num_threads g)))) as Hf.
  unfold Scan.attempts in Hf at 2. rewrite length_map, length_seqZ in Hf. nia.
Qed.

(** X13: when the byte of the block behind the data is a NUL (a zero-filled
    block) and the worker count divides the length of the data, the program
    is exact: it attempts every offset of the data once and its match count
    is the number of occurrences of the pattern in the data. *)
Theorem exact_on_zero_terminated_data (g : globals) :
  1 <= num_threads g -> 0 <= cur_length (fasta g) ->
  cur_length (fasta g) mod num_threads g = 0 ->
  sequence (fasta g) !! Z.to_nat (cur_length (fasta g)) = Some CString.NUL ->
  exists g',
    Scan.search g = Ret g' /\
    trial_count g' = trial_count g + cur_length (fasta g) /\
    match_count g' = match_count g
      + Spec.single_threaded_scan
          (take (Z.to_nat (cur_length (fasta g))) (sequence (fasta g)))
          (take (Scan.pattern_length g) (pattern g)).
Proof. apply ScanFacts.search_exact_when_terminated. Qed.

(** X14: a worker count that divides the length of the data changes nothing
    in the report: the totals are those of a single worker over all of the
    data, whatever the bytes behind the data hold. *)
Theorem dividing_worker_count_changes_nothing (g : globals) :
  1 <= num_threads g -> 0 <= cur_length (fasta g) -> Scan.defined g ->
  cur_length (fasta g) mod num_threads g = 0 ->
  exists g' g1,
    Scan.search g = Ret g' /\ Scan.search (Scan.set_num_threads g 1) = Ret g1 /\
    match_count g' = match_count g1 /\ trial_count g' = trial_count g1.
Proof. apply ScanFacts.search_divisible_as_one_thread. Qed.

(** X21: a worker whose loop returns has attempted the [chunk_size] offsets
    from its [ptr] on, in order and each once, whatever the block holds.
    Merging adds [chunk_size] to the attempts and between 0 and [chunk_size]
    to the matches, and changes nothing else. *)
Theorem worker_adds_its_chunk (g : globals) (ptr : Z) (l : Scan.local_t) :
  0 <= chunk_size g -> Scan.scan g ptr = Ret l ->
  Scan.tested l = seqZ ptr (chunk_size g) /\
  Scan.local_trial l = chunk_size g /\
  0 <= Scan.local_count l <= chunk_size g /\
  exists g',
    Scan.parallel_match g ptr = Ret g' /\ same_input g g' /\
    trial_count g' = trial_count g + chunk_size g /\
    match_count g' = match_count g + Scan.local_count l.
Proof.
  intros Hc Hscan.
  pose proof (ScanFacts.scan_tested g ptr l Hc Hscan) as Htested.
  destruct (LoopFacts.scan_counts g ptr l Hscan) as [Hcount Htrial].
  assert (Scan.local_trial l = chunk_size g) as Ht.
  { rewrite Htrial, Htested, length_seqZ. lia. }
  assert (length (Scan.hits l) <= length (Scan.tested l))%nat as Hle.
  { unfold Scan.hits, Scan.tested. rewrite !length_map. apply List.filter_length_le. }
  split; [done|]. split; [done|]. split; [lia|].
  exists (Scan.merge g l). unfold Scan.parallel_match. rewrite Hscan.
  split; [done|]. split; [apply ScanFacts.merge_frame|].
  simpl. by rewrite Ht.
Qed.

(** ** Schedules *)

Module ScheduleFacts.
Import Threads.

Lemma joined_unlocked g m : invariant g m -> joined m -> mutex m = None.
Proof.
  intros (_ & _ & Hheld & _) Hj. destruct (mutex m) as [i|] eqn:Hmu; [|done].
  destruct (Hheld i eq_refl) as (t & Ht & Hc).
  unfold joined in Hj. rewrite Forall_forall in Hj.
  rewrite (Hj t) in Hc; [done|]. apply list_elem_of_lookup. eauto.
Qed.

Lemma joined_no_work g m : joined m <-> work_left g m = 0%nat.
Proof.
  unfold joined, work_left. induction (threads m) as [|t ts IH]; simpl.
  - split; [done|constructor].
  - split.
    + intros H. apply Forall_cons in H as [Ht Hts]. apply IH in Hts.
      unfold steps_left at 1. rewrite Ht. lia.
    + intros H. constructor; [|apply IH; lia].
      unfold steps_left in H at 1. destruct (pc t); try done; lia.
Qed.

Lemma boot_work g :
  0 <= chunk_size g ->
  Z.of_nat (work_left g (boot g)) = Z.of_nat (length (Scan.match_ptrs g)) * (chunk_size g + 7).
Proof.
  intros Hc. unfold work_left, boot. simpl.
  induction (Scan.match_ptrs g) as [|ptr ptrs IH]; [done|].
  cbn [map sum_list length]. rewrite Nat2Z.inj_add, IH.
  unfold steps_left at 1. simpl. unfold Scan.last_location. lia.
Qed.

Lemma run_invariant g schedule : forall m m',
  invariant g m -> run schedule m = Some m' -> invariant g m'.
Proof.
  induction schedule as [|i rest IH]; intros m m' Hinv; simpl; [by intros [= <-]|].
  destruct (thread_step i m) as [m1|] eqn:E; [|done].
  apply IH. by eapply ThreadsFacts.step_invariant.
Qed.

End ScheduleFacts.

(** X15: the report does not depend on the schedule.  However the steps of
    the threads interleave, once all threads are joined the globals are those
    of the run in which the workers follow one another in the order of their
    creation, and the mutex is free. *)
Theorem report_is_schedule_independent (g : globals) (m : Threads.machine) :
  rtc Threads.step (Threads.boot g) m -> Threads.joined m ->
  Scan.run_workers (Scan.match_ptrs g) g = Ret (Threads.shared m) /\
  Threads.mutex m = None.
Proof.
  intros Hreach Hj. split.
  - by apply ThreadsFacts.joined_run_workers.
  - eapply ScheduleFacts.joined_unlocked; [by apply ThreadsFacts.reachable_invariant|done].
Qed.

(** X16: the threads neither deadlock nor run on for ever.  In a run in
    which every call of strncmp returns, a schedule of the threads that
    [main] creates has at most [num_threads * (chunk_size + 7)] steps (the
    turns of the loop, its exit and the six steps from lock to return); it
    has that many exactly when all threads are joined, and from wherever it
    stands the threads can run on until they are. *)
Theorem schedules_end_joined (g : globals) (schedule : list nat) (m : Threads.machine) :
  1 <= num_threads g -> 0 <= cur_length (fasta g) ->
  chunk_size g = cur_length (fasta g) / num_threads g -> Scan.defined g ->
  Threads.run schedule (Threads.boot g) = Some m ->
  let bound := num_threads g * (chunk_size g + 7) in
  Z.of_nat (length schedule) <= bound /\
  (Threads.joined m <-> Z.of_nat (length schedule) = bound) /\
  exists m', rtc Threads.step m m' /\ Threads.joined m'.
Proof.
  intros Hw HL Hc Hd Hrun bound.
  assert (0 <= chunk_size g) as Hc0 by (rewrite Hc; apply Z.div_pos; lia).
  pose proof (ThreadsFacts.boot_invariant g) as Hboot.
  pose proof (ThreadsFacts.run_work _ _ _ _ Hboot Hrun) as Hwork.
  pose proof (ScheduleFacts.boot_work g Hc0) as Hb.
  unfold Scan.match_ptrs in Hb. rewrite ScanFacts.spawn_length in Hb.
  rewrite Z2Nat.id in Hb by lia.
  pose proof (ScheduleFacts.joined_no_work g m) as Hj.
  split; [subst bound; lia|]. split; [subst bound; rewrite Hj; lia|].
  apply (ThreadsFacts.completes g (Threads.work_left g m)); try done.
  by eapply ScheduleFacts.run_invariant.
Qed.

(** ** Printing a match *)

Module PrintFacts.
Import Print.

Lemma print_byte_Done mem current length p :
  0 <= p < Z.of_nat (List.length mem) ->
  print_byte mem current length p =
    Done ((if decide (p = current) then [Char "["%char] else []) ++
          [Byte p (default CString.NUL (mem !! Z.to_nat p))] ++
          (if decide (p = current + length - 1) then [Char "]"%char] else [])).
Proof.
  intros Hp. unfold print_byte, Mem.load. rewrite decide_True by lia.
  destruct (lookup_lt_is_Some_2 mem (Z.to_nat p)) as [c Hc]; [lia|]. by rewrite Hc.
Qed.

Lemma print_bytes_app mem current length ps1 ps2 :
  print_bytes mem current length (ps1 ++ ps2) =
    match print_bytes mem current length ps1 with
    | Halt why => Halt why
    | Done a =>
        match print_bytes mem current length ps2 with
        | Halt why => Halt why
        | Done b => Done (a ++ b)
        end
    end.
Proof.
  induction ps1 as [|p ps1 IH]; simpl.
  - by destruct (print_bytes mem current length ps2).
  - destruct (print_byte mem current length p); [|done]. rewrite IH.
    destruct (print_bytes mem current length ps1); [|done].
    destruct (print_bytes mem current length ps2); [|done]. by rewrite app_assoc.
Qed.

(** Bytes that are neither the first nor the last of the match are printed
    bare. *)
Lemma print_bytes_plain mem current length ps :
  Forall (fun p => 0 <= p < Z.of_nat (List.length mem) /\
                   p <> current /\ p <> current + length - 1) ps ->
  print_bytes mem current length ps = Done (bytes mem ps).
Proof.
  induction 1 as [|p ps (Hp & H1 & H2) _ IH]; simpl; [done|].
  rewrite print_byte_Done, IH by done.
  by rewrite !decide_False by done.
Qed.

Lemma seqZ_one m : seqZ m 1 = [m].
Proof. done. Qed.

(** The match itself is printed between brackets. *)
Lemma print_bytes_match mem current length :
  1 <= length -> 0 <= current -> current + length <= Z.of_nat (List.length mem) ->
  print_bytes mem current length (seqZ current length) =
    Done ([Char "["%char] ++ bytes mem (seqZ current length) ++ [Char "]"%char]).
Proof.
  intros Hl Hc Hend.
  destruct (decide (length = 1)) as [->|Hne].
  - rewrite seqZ_one. simpl.
    rewrite print_byte_Done by lia.
    rewrite decide_True by done. rewrite decide_True by lia. done.
  - replace length with (1 + ((length - 2) + 1)) at 2 3 by lia.
    rewrite !seqZ_app by lia.
    rewrite !seqZ_one.
    rewrite print_bytes_app. simpl. rewrite print_byte_Done by lia.
    rewrite decide_True by done. rewrite decide_False by lia.
    rewrite print_bytes_app, print_bytes_plain.
    + simpl. rewrite print_byte_Done by lia.
      rewrite decide_False by lia. rewrite decide_True by lia.
      unfold bytes. rewrite !map_app. simpl. rewrite <- !app_assoc. done.
    + apply Forall_forall. intros p Hp. apply elem_of_seqZ in Hp. lia.
Qed.

Lemma shown_app os1 os2 : shown (os1 ++ os2) = shown os1 ++ shown os2.
Proof. unfold shown. apply omap_app. Qed.

Lemma print_byte_shown mem current length p o :
  print_byte mem current length p = Done o -> shown o = [p].
Proof.
  unfold print_byte. destruct (Mem.load mem p) as [c|]; [|done].
  intros [= <-]. by repeat destruct (decide _).
Qed.

(** The bytes shown are the bytes of the range, each once. *)
Lemma print_bytes_shown mem current length ps : forall os,
  print_bytes mem current length ps = Done os -> shown os = ps.
Proof.
  induction ps as [|p ps IH]; intros os; simpl; [by intros [= <-]|].
  destruct (print_byte mem current length p) as [o|] eqn:Ho; [|done].
  destruct (print_bytes mem current length ps) as [os'|]; [|done].
  intros [= <-]. rewrite shown_app, (print_byte_shown _ _ _ _ _ Ho), (IH _ eq_refl). done.
Qed.

Lemma print_bytes_in_block mem current length ps :
  Forall (fun p => 0 <= p < Z.of_nat (List.length mem)) ps ->
  exists os, print_bytes mem current length ps = Done os.
Proof.
  induction 1 as [|p ps Hp _ [os IH]]; simpl; [eauto|].
  rewrite print_byte_Done, IH by done. eauto.
Qed.

Lemma clamp_Done value low high :
  low < high ->
  clamp value low high = Done (Z.max low (Z.min value high)).
Proof.
  intros H. unfold clamp, min, max. rewrite decide_False by lia.
  f_equal. repeat destruct (decide _); lia.
Qed.

Lemma shown_padding n : shown (print_padding n) = [].
Proof.
  unfold print_padding. induction (Z.to_nat n) as [|k IH]; simpl; [done|]. apply IH.
Qed.

Lemma columns_app os1 os2 : columns (os1 ++ os2) = (columns os1 + columns os2)%nat.
Proof. unfold columns. by rewrite List.filter_app, length_app. Qed.

Lemma columns_padding n : columns (print_padding n) = Z.to_nat n.
Proof.
  unfold columns, print_padding. induction (Z.to_nat n) as [|k IH]; simpl; [done|].
  by rewrite IH.
Qed.

Lemma columns_bytes mem ps : columns (bytes mem ps) = List.length ps.
Proof.
  unfold columns, bytes. induction ps as [|p ps IH]; simpl; [done|]. by rewrite IH.
Qed.

(** With at least one byte of data, all of it inside the block,
    [bytes_around] returns, and the bytes it shows are the bytes between its
    two clamped bounds. *)
Lemma bytes_around_Done f current length :
  0 < cur_length f <= Z.of_nat (List.length (sequence f)) ->
  exists os,
    bytes_around f current length = Done os /\
    shown os = seqZ (Z.max 0 (Z.min (current - padding_bytes) (cur_length f)))
                    (Z.max 0 (Z.min (current + length + padding_bytes) (cur_length f))
                     - Z.max 0 (Z.min (current - padding_bytes) (cur_length f))).
Proof.
  intros HL. unfold bytes_around. rewrite !clamp_Done by lia.
  set (first := Z.max 0 (Z.min (current - padding_bytes) (cur_length f))).
  set (last := Z.max 0 (Z.min (current + length + padding_bytes) (cur_length f))).
  destruct (print_bytes_in_block (sequence f) current length (seqZ first (last - first)))
    as [body Hbody].
  { apply Forall_forall. intros p Hp. apply elem_of_seqZ in Hp. lia. }
  rewrite Hbody. eexists. split; [done|].
  rewrite !shown_app, !shown_padding. simpl.
  by rewrite app_nil_r, (print_bytes_shown _ _ _ _ _ Hbody).
Qed.

End PrintFacts.

(** X17: [clamp] refuses an interval whose lower bound is not below the
    upper one, a single point included; otherwise it returns the point of
    [[low, high]] nearest to [value]: [value] itself when it lies inside, the
    bound it lies beyond when it does not, and clamping again changes
    nothing. *)
Theorem clamp_is_projection (value low high : Z) :
  (high <= low -> Print.clamp value low high = Print.Halt (Print.BogusBounds low high)) /\
  (low < high ->
     exists r, Print.clamp value low high = Print.Done r /\
               low <= r <= high /\
               (low <= value <= high -> r = value) /\
               (value < low -> r = low) /\ (high < value -> r = high) /\
               Print.clamp r low high = Print.Done r).
Proof.
  split.
  - intros H. unfold Print.clamp. by rewrite decide_True by lia.
  - intros H. exists (Z.max low (Z.min value high)).
    split; [by apply PrintFacts.clamp_Done|].
    split; [lia|]. split; [lia|]. split; [lia|]. split; [lia|].
    rewrite PrintFacts.clamp_Done by done. f_equal. lia.
Qed.

(** X18: [bytes_around] keeps to the sequence data.  With no data it stops
    in [clamp] with "Bogus bounds"; with data (inside the block) it returns
    for every [current] and [length], also for a match that runs over the end
    of the data, and each byte it prints lies at an offset in
    [[0, cur_length)], printed once. *)
Theorem bytes_around_keeps_to_the_data (f : fasta_t) (current length : Z) :
  (cur_length f <= 0 ->
     Print.bytes_around f current length = Print.Halt (Print.BogusBounds 0 (cur_length f))) /\
  (0 < cur_length f <= Z.of_nat (List.length (sequence f)) ->
     exists os,
       Print.bytes_around f current length = Print.Done os /\
       Forall (fun p => 0 <= p < cur_length f) (Print.shown os) /\
       NoDup (Print.shown os)).
Proof.
  split.
  - intros H. unfold Print.bytes_around, Print.clamp. by rewrite decide_True by lia.
  - intros H. destruct (PrintFacts.bytes_around_Done f current length H) as (os & Hos & Hshown).
    exists os. split; [done|]. rewrite Hshown. split; [|apply NoDup_seqZ].
    apply Forall_forall. intros p Hp. apply elem_of_seqZ in Hp. lia.
Qed.

(** X19: for a match that lies in the data, [bytes_around] prints up to
    eight bytes of context in front of it, the match between brackets, up to
    eight bytes of context behind it and then the offset; where the data ends
    earlier the context is filled up with blanks, so that the offset column
    always starts after [18 + length] characters. *)
Theorem bytes_around_layout (f : fasta_t) (current length : Z) :
  0 <= current -> 1 <= length ->
  current + length <= cur_length f <= Z.of_nat (List.length (sequence f)) ->
  let before := Z.min Print.padding_bytes current in
  let after := Z.min Print.padding_bytes (cur_length f - (current + length)) in
  exists os,
    Print.bytes_around f current length = Print.Done os /\
    os = Print.print_padding (Print.padding_bytes - before) ++
         Print.bytes (sequence f) (seqZ (current - before) before) ++
         [Print.Char "["%char] ++
         Print.bytes (sequence f) (seqZ current length) ++
         [Print.Char "]"%char] ++
         Print.bytes (sequence f) (seqZ (current + length) after) ++
         Print.print_padding (Print.padding_bytes - after) ++
         [Print.Offset current] /\
    Z.of_nat (Print.columns os) = 18 + length.
Proof.
  intros Hc Hl HL before after. unfold Print.padding_bytes in *.
  eexists. split; [|split; [reflexivity|]].
  - unfold Print.bytes_around. rewrite !PrintFacts.clamp_Done by lia.
    unfold Print.padding_bytes.
    replace (Z.max 0 (Z.min (current - 8) (cur_length f))) with (current - before) by lia.
    replace (Z.max 0 (Z.min (current + length + 8) (cur_length f)))
      with (current + length + after) by lia.
    replace (current + length + after - (current - before))
      with (before + (length + after)) by lia.
    rewrite !seqZ_app by lia.
    replace (current - before + before) with current by lia.
    rewrite !PrintFacts.print_bytes_app.
    rewrite PrintFacts.print_bytes_plain.
    2:{ apply Forall_forall. intros p Hp. apply elem_of_seqZ in Hp. lia. }
    rewrite PrintFacts.print_bytes_match by lia.
    rewrite PrintFacts.print_bytes_plain.
    2:{ apply Forall_forall. intros p Hp. apply elem_of_seqZ in Hp. lia. }
    replace (current - (current - before)) with before by lia.
    replace (current + length + after - (current + length)) with after by lia.
    by rewrite <- !app_assoc.
  - rewrite !PrintFacts.columns_app, !PrintFacts.columns_padding, !PrintFacts.columns_bytes.
    rewrite !length_seqZ. simpl. subst before after.
    change (Print.columns [Print.Offset current]) with 0%nat. lia.
Qed.

(** X20: in verbose mode no worker stops in [bytes_around].  Whenever the
    loop of a worker counts matches, each of them is printed, and the bytes
    printed lie in the data. *)
Theorem verbose_printing_returns (g : globals) (ptr : Z) (l : Scan.local_t) :
  1 <= num_threads g ->
  0 <= cur_length (fasta g) <= Z.of_nat (List.length (sequence (fasta g))) ->
  chunk_size g = cur_length (fasta g) / num_threads g ->
  Scan.scan g ptr = Ret l ->
  List.length (Print.verbose_output g l) = Z.to_nat (Scan.local_count l) /\
  Forall (fun r => exists os, r = Print.Done os /\
                     Forall (fun p => 0 <= p < cur_length (fasta g)) (Print.shown os))
         (Print.verbose_output g l).
Proof.
  intros Hw HL Hc Hscan.
  assert (0 <= chunk_size g) as Hc0 by (rewrite Hc; apply Z.div_pos; lia).
  pose proof (ScanFacts.scan_tested _ _ _ Hc0 Hscan) as Htested.
  split.
  - unfold Print.verbose_output. rewrite length_map.
    rewrite (proj1 (LoopFacts.scan_counts _ _ _ Hscan)). lia.
  - unfold Print.verbose_output. apply Forall_forall. intros r Hr.
    apply ScanFacts.elem_of_map in Hr as (o & Ho & ->).
    assert (0 < cur_length (fasta g)) as Hpos.
    { destruct (decide (chunk_size g = 0)) as [H0|H0].
      - exfalso. unfold Scan.hits in Ho. unfold Scan.tested in Htested.
        rewrite H0 in Htested. destruct (Scan.log l); [|done].
        simpl in Ho. by apply elem_of_nil in Ho.
      - assert (num_threads g * chunk_size g <= cur_length (fasta g))
          by (rewrite Hc; apply Z.mul_div_le; lia).
        nia. }
    destruct (PrintFacts.bytes_around_Done (fasta g) o (Z.of_nat (Scan.pattern_length g)))
      as (os & Hos & Hshown); [lia|].
    exists os. split; [done|]. rewrite Hshown.
    apply Forall_forall. intros p Hp. apply elem_of_seqZ in Hp. lia.
Qed.

(** ** The theorems above at concrete runs *)


Lemma reading_exits_when_room_runs_out_witness :
  exists c,
    Fasta.fasta_read_file (Some (map Ingest.line_of Runs.lines)) Runs.tight
      = Stop (BufferTooSmall c (max_length Runs.tight)) /\
    cur_length Runs.tight <= c
      <= cur_length Runs.tight + Z.of_nat (length (Ingest.kept Runs.lines)) /\
    c + line_buffer_length > max_length Runs.tight.
Proof.
  apply (reading_exits_when_room_runs_out Runs.tight Runs.lines).
  - by vm_compute.
  - apply (bool_decide_eq_true_1 (Forall Ingest.text_line Runs.lines)). by vm_compute.
  - intros H. vm_compute in H. by apply H.
Defined.

Lemma files_are_read_as_one_witness :
  read_files (map (fun ds => Some (map Ingest.line_of ds)) [Runs.lines; Runs.lines])
             Runs.fresh
  = Fasta.fasta_read_file
      (Some (map Ingest.line_of (concat [Runs.lines; Runs.lines]))) Runs.fresh.
Proof.
  apply (files_are_read_as_one [Runs.lines; Runs.lines] Runs.fresh).
  apply (bool_decide_eq_true_1
           (Forall (Forall Ingest.text_line) [Runs.lines; Runs.lines])).
  by vm_compute.
Defined.

Lemma unterminated_line_takes_stale_bytes_witness :
  Fasta.fasta_read_file
    (Some (map Ingest.line_of ([] ++ [Examples.chars "AAAAAAAA"]) ++ [Examples.chars "CC"]))
    Runs.fresh
  = Fasta.fasta_read_file
      (Some (map Ingest.line_of
               ([] ++ [Examples.chars "AAAAAAAA";
                       Examples.chars "CC" ++ CString.NUL ::
                         drop (S (length (Examples.chars "CC")))
                              (Examples.chars "AAAAAAAA")]))) Runs.fresh.
Proof.
  apply (unterminated_line_takes_stale_bytes Runs.fresh [] (Examples.chars "AAAAAAAA")
           (Examples.chars "CC")).
  - apply (bool_decide_eq_true_1
             (Forall Ingest.text_line ([] ++ [Examples.chars "AAAAAAAA"]))).
    by vm_compute.
  - apply (bool_decide_eq_false_1 (Fasta.newline ∈ Examples.chars "CC")). by vm_compute.
  - simpl. lia.
Defined.

Lemma every_exit_has_its_cause_witness :
  Causes.of_exit Runs.one_thread (Run.Parsed Runs.two_workers) (ThreadError "create" 11).
Proof.
  apply (every_exit_has_its_cause Runs.one_thread Examples.zeroed
           (Run.Parsed Runs.two_workers) (ThreadError "create" 11)).
  - by vm_compute.
  - reflexivity.
Defined.

Lemma missing_file_means_no_report_witness :
  exists why, main Examples.zeroed Runs.missing_file = Stop why.
Proof.
  apply (missing_file_means_no_report Examples.zeroed Runs.missing_file).
  apply (bool_decide_eq_true_1 (None ∈ files Runs.missing_file)). by vm_compute.
Defined.


Lemma main_exact_on_fresh_memory_witness :
  let data := Ingest.kept (concat [Runs.lines]) in
  exists g,
    Run.main Runs.obliging Examples.zeroed (Run.Parsed Runs.two_workers) = Ret g /\
    trial_count g = Z.of_nat (length data) /\
    match_count g
      = Spec.single_threaded_scan data
          (take (CString.strlen (Examples.chars "ACGT")) (Examples.chars "ACGT")).
Proof.
  apply (main_exact_on_fresh_memory Runs.obliging Examples.zeroed Runs.two_workers
           (Examples.chars "ACGT") [Runs.lines]).
  - repeat split; reflexivity.
  - reflexivity.
  - reflexivity.
  - apply (bool_decide_eq_true_1 (Forall (Forall Ingest.text_line) [Runs.lines])).
    by vm_compute.
  - by vm_compute.
  - by vm_compute.
  - by vm_compute.
  - reflexivity.
Defined.

Lemma empty_pattern_matches_everywhere_witness :
  exists g',
    Scan.search Runs.no_pattern = Ret g' /\
    trial_count g' = trial_count Runs.no_pattern
      + num_threads Runs.no_pattern
        * (cur_length (fasta Runs.no_pattern) / num_threads Runs.no_pattern) /\
    match_count g' - match_count Runs.no_pattern
      = trial_count g' - trial_count Runs.no_pattern.
Proof.
  apply (empty_pattern_matches_everywhere Runs.no_pattern).
  - by vm_compute.
  - by vm_compute.
  - reflexivity.
Defined.

Lemma more_workers_than_bytes_witness :
  exists g',
    Scan.search Runs.crowded = Ret g' /\ chunk_size g' = 0 /\
    match_count g' = match_count Runs.crowded /\
    trial_count g' = trial_count Runs.crowded /\
    forall ptr l, Scan.scan g' ptr = Ret l -> Scan.reads l = [] /\ Scan.tested l = [].
Proof.
  apply (more_workers_than_bytes Runs.crowded). by vm_compute.
Defined.

Lemma counted_matches_are_real_witness :
  0 <= 4 < 0 + chunk_size Examples.partitioned /\
  take (Scan.pattern_length Examples.partitioned)
       (drop (Z.to_nat 4) (sequence (fasta Examples.partitioned)))
    = take (Scan.pattern_length Examples.partitioned) (pattern Examples.partitioned) /\
  (4 + Z.of_nat (Scan.pattern_length Examples.partitioned)
     <= cur_length (fasta Examples.partitioned) ->
   Scan.occurrence Examples.partitioned 4).
Proof.
  apply (counted_matches_are_real Examples.partitioned 0 4 Runs.first_worker).
  - by vm_compute.
  - by vm_compute.
  - by vm_compute.
  - apply (bool_decide_eq_true_1 (4 ∈ Scan.hits Runs.first_worker)). by vm_compute.
Defined.

Lemma totals_of_a_search_witness :
  exists g',
    Scan.search Examples.spanning = Ret g' /\
    trial_count g' - trial_count Examples.spanning
      = num_threads Examples.spanning
        * (cur_length (fasta Examples.spanning) / num_threads Examples.spanning) /\
    cur_length (fasta Examples.spanning) - num_threads Examples.spanning
      < trial_count g' - trial_count Examples.spanning
      <= cur_length (fasta Examples.spanning) /\
    0 <= match_count g' - match_count Examples.spanning
      <= trial_count g' - trial_count Examples.spanning.
Proof.
  apply (totals_of_a_search Examples.spanning).
  - by vm_compute.
  - by vm_compute.
  - apply ScanFacts.in_block_defined. by vm_compute.
Defined.

Lemma exact_on_zero_terminated_data_witness :
  exists g',
    Scan.search Examples.spanning = Ret g' /\
    trial_count g' = trial_count Examples.spanning + cur_length (fasta Examples.spanning) /\
    match_count g' = match_count Examples.spanning
      + Spec.single_threaded_scan
          (take (Z.to_nat (cur_length (fasta Examples.spanning)))
                (sequence (fasta Examples.spanning)))
          (take (Scan.pattern_length Examples.spanning) (pattern Examples.spanning)).
Proof.
  apply (exact_on_zero_terminated_data Examples.spanning).
  - by vm_compute.
  - by vm_compute.
  - reflexivity.
  - reflexivity.
Defined.

Lemma dividing_worker_count_changes_nothing_witness :
  exists g' g1,
    Scan.search Examples.spanning = Ret g' /\
    Scan.search (Scan.set_num_threads Examples.spanning 1) = Ret g1 /\
    match_count g' = match_count g1 /\ trial_count g' = trial_count g1.
Proof.
  apply (dividing_worker_count_changes_nothing Examples.spanning).
  - by vm_compute.
  - by vm_compute.
  - apply ScanFacts.in_block_defined. by vm_compute.
  - reflexivity.
Defined.

Lemma report_is_schedule_independent_witness :
  Scan.run_workers (Scan.match_ptrs Examples.partitioned) Examples.partitioned
    = Ret (Threads.shared Examples.final) /\
  Threads.mutex Examples.final = None.
Proof.
  apply (report_is_schedule_independent Examples.partitioned Examples.final).
  - apply (ThreadsFacts.run_steps Examples.schedule). by vm_compute.
  - unfold Threads.joined. vm_compute. repeat constructor.
Defined.

Lemma schedules_end_joined_witness :
  let bound := num_threads Examples.partitioned * (chunk_size Examples.partitioned + 7) in
  Z.of_nat (length Examples.schedule) <= bound /\
  (Threads.joined Examples.final <-> Z.of_nat (length Examples.schedule) = bound) /\
  exists m', rtc Threads.step Examples.final m' /\ Threads.joined m'.
Proof.
  apply (schedules_end_joined Examples.partitioned Examples.schedule Examples.final).
  - by vm_compute.
  - by vm_compute.
  - reflexivity.
  - apply ScanFacts.in_block_defined. by vm_compute.
  - by vm_compute.
Defined.

Lemma bytes_around_layout_witness :
  let f := fasta Examples.spanning in
  let before := Z.min Print.padding_bytes 4 in
  let after := Z.min Print.padding_bytes (cur_length f - (4 + 4)) in
  exists os,
    Print.bytes_around f 4 4 = Print.Done os /\
    os = Print.print_padding (Print.padding_bytes - before) ++
         Print.bytes (sequence f) (seqZ (4 - before) before) ++
         [Print.Char "["%char] ++
         Print.bytes (sequence f) (seqZ 4 4) ++
         [Print.Char "]"%char] ++
         Print.bytes (sequence f) (seqZ (4 + 4) after) ++
         Print.print_padding (Print.padding_bytes - after) ++
         [Print.Offset 4] /\
    Z.of_nat (Print.columns os) = 18 + 4.
Proof.
  apply (bytes_around_layout (fasta Examples.spanning) 4 4).
  - by vm_compute.
  - by vm_compute.
  - by vm_compute.
Defined.

Lemma verbose_printing_returns_witness :
  length (Print.verbose_output Examples.partitioned Runs.first_worker)
    = Z.to_nat (Scan.local_count Runs.first_worker) /\
  Forall (fun r => exists os, r = Print.Done os /\
                     Forall (fun p => 0 <= p < cur_length (fasta Examples.partitioned))
                            (Print.shown os))
         (Print.verbose_output Examples.partitioned Runs.first_worker).
Proof.
  apply (verbose_printing_returns Examples.partitioned 0 Runs.first_worker).
  - by vm_compute.
  - by vm_compute.
  - reflexivity.
  - by vm_compute.
Defined.

Lemma worker_adds_its_chunk_witness :
  Scan.tested Runs.first_worker = seqZ 0 (chunk_size Examples.partitioned) /\
  Scan.local_trial Runs.first_worker = chunk_size Examples.partitioned /\
  0 <= Scan.local_count Runs.first_worker <= chunk_size Examples.partitioned /\
  exists g',
    Scan.parallel_match Examples.partitioned 0 = Ret g' /\
    same_input Examples.partitioned g' /\
    trial_count g' = trial_count Examples.partitioned + chunk_size Examples.partitioned /\
    match_count g' = match_count Examples.partitioned + Scan.local_count Runs.first_worker.
Proof.
  apply (worker_adds_its_chunk Examples.partitioned 0 Runs.first_worker).
  - by vm_compute.
  - by vm_compute.
Defined.
